(** * ProDy [prody/utilities/misctools.py]: [rangeString] and [tabulate]

    A shallow embedding of the two functions of the module that carry an
    algorithm, and the properties of them that the specification states.

    Conventions of the embedding.
    - Integers are [Z].  [numpy.unique] hands back an array of 64-bit
      signed integers, so the values that [rangeString] works on are numpy
      scalars: the subtraction [i - prev] and the addition [l[-1] + exc]
      wrap around, which [wrap64] writes out.  The model speaks about inputs
      that such an array can hold ([int64]).
    - Python strings are [string]; [len] is [String.length], [sep.join] is
      [String.concat], [str] on an integer is the decimal rendering of the
      standard library.
    - A call either returns a value or raises: [result A] carries the
      exception.  The statements are evaluated left to right as Python does,
      so the first exception met is the one returned.
    - The module is Python 2 code ([map] is used for its side effect on
      [rows]); [map] and [zip] are the eager list functions of Python 2. *)

From Stdlib Require Import ZArith List Bool Lia String Ascii Sorted.
From Stdlib Require Import DecimalString DecimalZ DecimalPos.
Import ListNotations.

Open Scope string_scope.
Open Scope Z_scope.

(** ** Exceptions and results *)

(** The first three are the Python exceptions the two functions can raise.
    [EmptyInput] and [ShapeMismatch] are the names of the specification's
    error taxonomy; no path of the code constructs them. *)
Inductive exn : Type :=
| IndexError
| ValueError
| UnboundLocalError
| EmptyInput
| ShapeMismatch.

Inductive result (A : Type) : Type :=
| Ok (a : A)
| Raise (e : exn).

Arguments Ok {A} a.
Arguments Raise {A} e.

Definition bind {A B : Type} (r : result A) (k : A -> result B) : result B :=
  match r with
  | Ok a => k a
  | Raise e => Raise e
  end.

Notation "x <- r ;; k" := (bind r (fun x => k))
  (at level 61, r at next level, right associativity).

(** [[f(x) for x in xs]] when [f] may raise: left to right, first exception
    wins. *)
Fixpoint mapM {A B : Type} (f : A -> result B) (xs : list A) : result (list B) :=
  match xs with
  | [] => Ok []
  | x :: xs' => y <- f x ;; ys <- mapM f xs' ;; Ok (y :: ys)
  end.

(** [xs[i]] for [0 <= i]. *)
Definition index {A : Type} (xs : list A) (i : nat) : result A :=
  match nth_error xs i with
  | Some x => Ok x
  | None => Raise IndexError
  end.

(** [enumerate(xs)] counted from [start]. *)
Fixpoint enumerate_from {A : Type} (start : nat) (xs : list A) : list (nat * A) :=
  match xs with
  | [] => []
  | x :: xs' => (start, x) :: enumerate_from (S start) xs'
  end.

Definition enumerate {A : Type} (xs : list A) : list (nat * A) :=
  enumerate_from 0 xs.

(** ** Strings *)

(** [c * n]: the character repeated, empty when [n <= 0]. *)
Fixpoint replicate (n : nat) (c : ascii) : string :=
  match n with
  | O => EmptyString
  | S n' => String c (replicate n' c)
  end.

Definition times (c : ascii) (n : Z) : string := replicate (Z.to_nat n) c.

Definition len (s : string) : Z := Z.of_nat (String.length s).

(** [s.ljust(w)] *)
Definition ljust (s : string) (w : Z) : string :=
  s ++ times " " (w - len s).

(** [sep.join(xs)] *)
Definition join (sep : string) (xs : list string) : string :=
  String.concat sep xs.

(** [str(z)] for an integer. *)
Definition str (z : Z) : string := NilZero.string_of_int (Z.to_int z).

(** ** [rangeString] *)

(** [numpy.unique]: the distinct values in ascending order. *)
Fixpoint insert_unique (x : Z) (l : list Z) : list Z :=
  match l with
  | [] => [x]
  | y :: t =>
      if x <? y then x :: l
      else if x =? y then l
      else y :: insert_unique x t
  end.

Definition unique (l : list Z) : list Z := fold_right insert_unique [] l.

(** [[ints[ints > -1]]] *)
Definition keep_nonneg (ints : list Z) : list Z :=
  filter (fun z => -1 <? z) ints.

(** Lines 57-59: [ints = unique(lint)], then the filter, guarded by
    [pos and ints[0] < 0]; [ints[0]] raises on the empty array, and [and]
    does not evaluate it when [pos] is false. *)
Definition preprocess (lint : list Z) (pos : bool) : result (list Z) :=
  let ints := unique lint in
  if pos then
    first <- index ints 0 ;;
    if first <? 0 then Ok (keep_nonneg ints) else Ok ints
  else Ok ints.

(** The values of a 64-bit signed integer. *)
Definition int64_min : Z := -9223372036854775808.
Definition int64_max : Z := 9223372036854775807.

Definition int64 (z : Z) : Prop := int64_min <= z <= int64_max.

(** The result of an addition or subtraction of 64-bit numpy scalars:
    the exact result brought back into the 64-bit range. *)
Definition wrap64 (z : Z) : Z :=
  (z - int64_min) mod 18446744073709551616 + int64_min.

(** [lint[-1].append(i)] *)
Definition append_last (lint : list (list Z)) (i : Z) : list (list Z) :=
  (removelast lint ++ [last lint [] ++ [i]])%list.

(** One turn of the loop of lines 63-68 on the state [(lint, prev)]. *)
Definition group_step (st : list (list Z) * Z) (i : Z) : list (list Z) * Z :=
  let (lint, prev) := st in
  (if 1 <? wrap64 (i - prev) then (lint ++ [[i]])%list
   else append_last lint i, i).

(** Lines 61-68: [prev = ints[0]], [lint = [[prev]]], then the loop over
    [ints[1:]]. *)
Definition group (ints : list Z) : result (list (list Z)) :=
  prev <- index ints 0 ;;
  Ok (fst (fold_left group_step (tl ints) ([[prev]], prev))).

(** The element of the list comprehension of lines 70-71 for one run [l]. *)
Definition render (rng : string) (exc : Z) (l : list Z) : result string :=
  if Nat.eqb (List.length l) 1 then
    first <- index l 0 ;; Ok (str first)
  else
    first <- index l 0 ;;
    Ok (str first ++ rng ++ str (wrap64 (last l 0 + exc))).

(** [int(exc)] *)
Definition int_of_bool (b : bool) : Z := if b then 1 else 0.

Definition rangeString (lint : list Z) (sep rng : string) (exc pos : bool)
  : result string :=
  ints <- preprocess lint pos ;;
  runs <- group ints ;;
  pieces <- mapM (render rng (int_of_bool exc)) runs ;;
  Ok (join sep pieces).

(** ** Reading a range string back *)

(** [int(s)] on a decimal numeral with an optional leading minus sign. *)
Definition int_of_str (s : string) : result Z :=
  match NilZero.int_of_string s with
  | Some d => Ok (Z.of_int d)
  | None => Raise ValueError
  end.

(** [s.split(sep)] for a non-empty [sep]: the pieces between the leftmost
    non-overlapping occurrences of [sep].  [skip] counts the characters of
    an occurrence that are still to be passed over. *)
Fixpoint split_from (sep : string) (skip : nat) (s : string) : list string :=
  match s with
  | EmptyString => [EmptyString]
  | String a s' =>
      match skip with
      | S k => split_from sep k s'
      | O =>
          if prefix sep s then
            EmptyString :: split_from sep (Nat.pred (String.length sep)) s'
          else
            match split_from sep O s' with
            | p :: ps => String a p :: ps
            | [] => [String a EmptyString]
            end
      end
  end.

(** Python raises [ValueError] on an empty separator. *)
Definition split (s sep : string) : result (list string) :=
  match sep with
  | EmptyString => Raise ValueError
  | String _ _ => Ok (split_from sep O s)
  end.

(** [range(a, b)] *)
Definition range (a b : Z) : list Z :=
  map (fun k => a + Z.of_nat k) (seq 0 (Z.to_nat (b - a))).

(** Modelled from the spec: the reading of one rendered run, which the
    repository does not contain.  "each run re-expanded to its integers using
    the configured range symbol and exclusivity": a piece without the range
    symbol is one integer, a piece [a rng b] stands for [a .. b], or for
    [a .. b - 1] when the end is displayed exclusively. *)
Definition expand_run (rng : string) (exc : bool) (piece : string)
  : result (list Z) :=
  parts <- split piece rng ;;
  match parts with
  | [a] => x <- int_of_str a ;; Ok [x]
  | [a; b] =>
      x <- int_of_str a ;;
      y <- int_of_str b ;;
      Ok (range x (if exc then y else y + 1))
  | _ => Raise ValueError
  end.

(** Modelled from the spec: the parse of section 8's round-trip law, which
    the repository does not contain.  "runs split by the configured
    separator, each run re-expanded". *)
Definition expand (sep rng : string) (exc : bool) (s : string)
  : result (list Z) :=
  pieces <- split s sep ;;
  runs <- mapM (expand_run rng exc) pieces ;;
  Ok (List.concat runs).

(** ** [textwrap.wrap] *)

(** [textwrap.wrap] belongs to Python's library, not to the repository.
    [tabulate] is embedded over an arbitrary wrapping function; the closed
    examples use [textwrap_py], the library's algorithm with its default
    options for texts whose break points are blanks (no tabs, no hyphens):
    the text is cut into maximal runs of blanks and of other characters, and
    the lines are filled greedily, blanks at a line's ends dropped and a word
    longer than the width broken. *)

Definition all_space (s : string) : bool :=
  forallb (fun c => Ascii.eqb c " ") (list_ascii_of_string s).

Fixpoint chunks_of (s : string) : list string :=
  match s with
  | EmptyString => []
  | String c s' =>
      match chunks_of s' with
      | String d ch :: rest =>
          if Bool.eqb (Ascii.eqb c " ") (Ascii.eqb d " ")
          then String c (String d ch) :: rest
          else String c EmptyString :: String d ch :: rest
      | rest => String c EmptyString :: rest
      end
  end.

(** The inner [while chunks] loop of [_wrap_chunks]. *)
Fixpoint fill (width cur_len : Z) (cur_line chunks : list string)
  : list string * Z * list string :=
  match chunks with
  | [] => (cur_line, cur_len, [])
  | ch :: rest =>
      if cur_len + len ch <=? width
      then fill width (cur_len + len ch) (cur_line ++ [ch])%list rest
      else (cur_line, cur_len, chunks)
  end.

Definition nonempty {A : Type} (l : list A) : bool :=
  match l with [] => false | _ :: _ => true end.

(** The outer loop of [_wrap_chunks]; every turn consumes at least one
    character, so [fuel] beyond the length of the text is never used up. *)
Fixpoint wrap_chunks (fuel : nat) (width : Z) (chunks lines : list string)
  : list string :=
  match fuel with
  | O => lines
  | S fuel' =>
      match chunks with
      | [] => lines
      | ch0 :: rest0 =>
          let chunks1 :=
            if all_space ch0 && nonempty lines then rest0 else chunks in
          let '(cur_line, cur_len, chunks2) := fill width 0 [] chunks1 in
          let '(cur_line1, chunks3) :=
            match chunks2 with
            | ch :: rest =>
                if width <? len ch then
                  let space_left := Z.to_nat (width - cur_len) in
                  ((cur_line ++ [substring 0 space_left ch])%list,
                   substring space_left (String.length ch - space_left) ch
                     :: rest)
                else (cur_line, chunks2)
            | [] => (cur_line, chunks2)
            end in
          let cur_line2 :=
            if nonempty cur_line1 && all_space (last cur_line1 EmptyString)
            then removelast cur_line1 else cur_line1 in
          let lines1 :=
            if nonempty cur_line2
            then (lines ++ [String.concat EmptyString cur_line2])%list
            else lines in
          wrap_chunks fuel' width chunks3 lines1
      end
  end.

Definition textwrap_py (text : string) (width : Z) : result (list string) :=
  if width <=? 0 then Raise ValueError
  else Ok (wrap_chunks (S (String.length text)) width (chunks_of text) []).

(** ** [tabulate] *)

Definition newline : string := String (ascii_of_nat 10) EmptyString.

Definition sum (zs : list Z) : Z := fold_right Z.add 0 zs.

(** [max(xs)]: [ValueError] on the empty sequence. *)
Definition max_of (zs : list Z) : result Z :=
  match zs with
  | [] => Raise ValueError
  | z :: zs' => Ok (fold_left Z.max zs' z)
  end.

Definition max_len {A : Type} (rows : list (list A)) : result nat :=
  match map (@List.length A) rows with
  | [] => Raise ValueError
  | n :: ns => Ok (fold_left Nat.max ns n)
  end.

(** [zip] applied to the columns: the tuples of the i-th cells, as many as the shortest
    column has cells. *)
Fixpoint zip_cols {A : Type} (cols : list (list A)) : list (list A) :=
  match cols with
  | [] => []
  | c :: cs =>
      match cs with
      | [] => map (fun x => [x]) c
      | _ :: _ => map (fun p => fst p :: snd p) (combine c (zip_cols cs))
      end
  end.

(** Lines 142-143: [widths = [max(map(len, cols[0]))]], then
    [widths.append(width - sum(widths) - len(widths) * space)]. *)
Definition column_widths (cols : list (list string)) (width space : Z)
  : result (list Z) :=
  col0 <- index cols 0 ;;
  w0 <- max_of (map len col0) ;;
  let widths := [w0] in
  Ok (widths ++ [width - sum widths - Z.of_nat (List.length widths) * space])%list.

Section Tabulate.

Variable textwrap : string -> Z -> result (list string).

(** The element of the list comprehension of lines 150-152. *)
Definition cell (widths : list Z) (ic : nat * string) : result (list string) :=
  let (icol, item) := ic in
  match icol with
  | O => w <- index widths icol ;; Ok [ljust item w]
  | S _ => w <- index widths icol ;; textwrap item w
  end.

(** The body of the loop of lines 155-156. *)
Definition pad (widths : list Z) (maxlen : nat) (ir : nat * list string)
  : result (list string) :=
  let (i, row) := ir in
  w <- index widths i ;;
  Ok (row ++ repeat (times " " w) (maxlen - List.length row))%list.

(** Lines 149-158 for one logical row: the physical lines it appends. *)
Definition row_lines (widths : list Z) (space : string) (items : list string)
  : result (list string) :=
  rows <- mapM (cell widths) (enumerate items) ;;
  maxlen <- max_len rows ;;
  rows' <- (if Nat.ltb 1 maxlen
            then mapM (pad widths maxlen) (enumerate rows)
            else Ok rows) ;;
  Ok (map (join space) (zip_cols rows')).

(** The [for irow, items in enumerate(zip( *cols))] loop on the state
    [(lines, irow)]; [irow] is unbound until the first turn. *)
Fixpoint row_loop (widths : list Z) (space bars : string) (header : bool)
  (todo : list (nat * list string)) (st : list string * option nat)
  : result (list string * option nat) :=
  match todo with
  | [] => Ok st
  | (irow, items) :: rest =>
      new <- row_lines widths space items ;;
      let lines := (fst st ++ new)%list in
      let lines' :=
        if Nat.eqb irow 0 && header then (lines ++ [bars])%list else lines in
      row_loop widths space bars header rest (lines', Some irow)
  end.

(** [bars] of line 145. *)
Definition border (widths : list Z) (space : Z) : string :=
  join (times " " space) (map (times "=") widths).

(** The list [lines] at the [return]. *)
Definition tabulate_lines (cols : list (list string)) (width space : Z)
  (header : bool) : result (list string) :=
  widths <- column_widths cols width space ;;
  let bars := border widths space in
  st <- row_loop widths (times " " space) bars header
          (enumerate (zip_cols cols)) ([bars], None) ;;
  match snd st with
  | None => Raise UnboundLocalError
  | Some irow =>
      Ok (if Nat.ltb 1 irow then (fst st ++ [bars])%list else fst st)
  end.

Definition tabulate (cols : list (list string)) (width space : Z)
  (header : bool) : result string :=
  lines <- tabulate_lines cols width space header ;;
  Ok (join newline lines).

End Tabulate.

(** ** [wrap] *)

(** Line 126: [join.join(textwrap(text, width))], over the wrapping function
    as [tabulate] is. *)
Definition wrap (textwrap : string -> Z -> result (list string))
  (text : string) (width : Z) (join : string) : result string :=
  lines <- textwrap text width ;;
  Ok (String.concat join lines).

(** ** [alnum] *)

(** [char.isalnum()] on one character of a byte string: the ASCII letters
    and digits. *)
Definition isalnum (char : ascii) : bool :=
  let n := nat_of_ascii char in
  ((48 <=? n) && (n <=? 57) || (65 <=? n) && (n <=? 90)
   || (97 <=? n) && (n <=? 122))%nat.

(** The loop of lines 77-81 on the accumulator [result]. *)
Fixpoint alnum_loop (result alt string : String.string) : String.string :=
  match string with
  | EmptyString => result
  | String char rest =>
      alnum_loop
        (if isalnum char then result ++ String char EmptyString
         else result ++ alt)
        alt rest
  end.

Definition alnum (string alt : String.string) : String.string :=
  alnum_loop EmptyString alt string.

(** ** [dictElement] *)

(** What the function uses of an [xml.etree.ElementTree.Element]: its tag,
    its text, which may be [None], and the list of its children. *)
#[warnings="-register-all"]
Inductive Element : Type :=
| Elem (tag : string) (text : option string) (children : list Element).

Definition tag (e : Element) : string :=
  match e with Elem t _ _ => t end.

Definition text (e : Element) : option string :=
  match e with Elem _ x _ => x end.

Definition children (e : Element) : list Element :=
  match e with Elem _ _ cs => cs end.

(** A value of the dictionary: the text of a child without children, or the
    child itself. *)
Inductive value : Type :=
| Text (t : option string)
| Child (e : Element).

(** A Python dictionary with string keys: at most one binding per key,
    [dict_[k] = v] replaces the binding of [k] or adds one. *)
Definition dict : Type := list (string * value).

Fixpoint dict_set (d : dict) (k : string) (v : value) : dict :=
  match d with
  | [] => [(k, v)]
  | (k', v') :: d' =>
      if String.eqb k' k then (k, v) :: d' else (k', v') :: dict_set d' k v
  end.

Fixpoint dict_get (d : dict) (k : string) : option value :=
  match d with
  | [] => None
  | (k', v') :: d' => if String.eqb k' k then Some v' else dict_get d' k
  end.

Definition keys (d : dict) : list string := map fst d.

(** [s[n:]] *)
Fixpoint drop (n : nat) (s : string) : string :=
  match n, s with
  | S n', String _ s' => drop n' s'
  | _, _ => s
  end.

(** Lines 108-114: [length] is [False] unless [prefix] is a string; the tag
    loses the prefix when [length] is truthy and the tag starts with it. *)
Definition child_key (prefix : option string) (child : Element) : string :=
  match prefix with
  | None => tag child
  | Some p =>
      let length := String.length p in
      if negb (Nat.eqb length 0) && String.prefix p (tag child)
      then drop length (tag child)
      else tag child
  end.

(** Lines 115-118. *)
Definition child_value (child : Element) : value :=
  if Nat.eqb (List.length (children child)) 0 then Text (text child)
  else Child child.

Definition dictElement (element : Element) (prefix : option string) : dict :=
  fold_left
    (fun dict_ child =>
       dict_set dict_ (child_key prefix child) (child_value child))
    (children element) [].

(** ** Vocabulary of the statements *)

(** Strictly ascending: sorted and free of duplicates. *)
Definition ascending (l : list Z) : Prop := Sorted.StronglySorted Z.lt l.

(** A run in the sense of the specification: the integers from its first to
    its last element, in steps of one. *)
Definition contiguous (l : list Z) : Prop :=
  l <> [] /\ l = range (hd 0 l) (last l 0 + 1).

(** Between two neighbouring runs at least one integer is left out. *)
Fixpoint gaps (runs : list (list Z)) : Prop :=
  match runs with
  | [] => True
  | r1 :: rest =>
      match rest with
      | [] => True
      | r2 :: _ => 1 < hd 0 r2 - last r1 0 /\ gaps rest
      end
  end.

(** The loop of [group] as a recursion on the values still to come: [cur] is
    the run being built, [prev] its last element. *)
Fixpoint runs_of (cur : list Z) (prev : Z) (rest : list Z) : list (list Z) :=
  match rest with
  | [] => [cur]
  | i :: rest' =>
      if 1 <? wrap64 (i - prev) then cur :: runs_of [i] i rest'
      else runs_of (cur ++ [i])%list i rest'
  end.

(** The decimal digits. *)
Definition digit (c : ascii) : bool :=
  existsb (Ascii.eqb c) (list_ascii_of_string "0123456789").

Definition occurs (c : ascii) (s : string) : bool :=
  existsb (Ascii.eqb c) (list_ascii_of_string s).

(** A minus sign is written when a negative value is rendered: the input
    has one and the filter is off. *)
Definition renders_minus (lint : list Z) (pos : bool) : bool :=
  negb pos && existsb (fun z => z <? 0) lint.

(** A character that cannot be part of a rendered number: no digit, and no
    minus sign when one is written. *)
Definition apart (minus : bool) (c : ascii) : bool :=
  negb (digit c) && negb (minus && Ascii.eqb c "-").

(** A range symbol that cannot be taken for part of a numeral: it is not
    empty and its first character is apart from the numbers. *)
Definition symbol_ok (minus : bool) (rng : string) : bool :=
  match rng with
  | EmptyString => false
  | String d _ => apart minus d
  end.

(** A separator that cannot be found inside a rendered run: it is not empty
    and its first character is apart from the numbers and no character of
    the range symbol. *)
Definition separator_ok (minus : bool) (sep rng : string) : bool :=
  match sep with
  | EmptyString => false
  | String c _ => apart minus c && negb (occurs c rng)
  end.

(** The values of a list lie less than [2^63] apart, so that no difference
    of two of them wraps around. *)
Definition close (l : list Z) : Prop :=
  forall x y, In x l -> In y l -> y - x <= int64_max.

(** What the round trip needs of a run, for the first characters [d] of the
    range symbol and [c] of the separator. *)
Definition readable (d c : ascii) (exc : bool) (run : list Z) : Prop :=
  contiguous run
  /\ occurs d (str (hd 0 run)) = false
  /\ occurs d (str (last run 0 + int_of_bool exc)) = false
  /\ occurs c (str (hd 0 run)) = false
  /\ occurs c (str (last run 0 + int_of_bool exc)) = false
  /\ (List.length run = 1%nat \/ int64 (last run 0 + int_of_bool exc)).

(** The length of the shortest column. *)
Fixpoint shortest {A : Type} (cols : list (list A)) : nat :=
  match cols with
  | [] => O
  | c :: cs =>
      match cs with
      | [] => List.length c
      | _ :: _ => Nat.min (List.length c) (shortest cs)
      end
  end.

(** The physical lines of a table without the borders at its ends: the
    rendered logical rows one after the other, the header border after the
    first of them. *)
Definition body (bars : string) (header : bool) (first : list string)
  (rest : list (list string)) : list string :=
  (first ++ (if header then [bars] else []) ++ List.concat rest)%list.

(** What one character contributes to the result. *)
Definition alnum_char (alt : string) (char : ascii) : string :=
  if isalnum char then String char EmptyString else alt.

(** The number of alphanumeric characters of a string. *)
Definition count_alnum (s : string) : nat :=
  List.length (filter isalnum (list_ascii_of_string s)).

(** One turn of the loop of [dictElement]. *)
Definition dict_step (prefix : option string) (dict_ : dict)
  (child : Element) : dict :=
  dict_set dict_ (child_key prefix child) (child_value child).

(** No two neighbouring values of an ascending list are consecutive, and
    their difference does not wrap around. *)
Fixpoint sparse (l : list Z) : Prop :=
  match l with
  | [] => True
  | x :: t =>
      match t with
      | [] => True
      | y :: _ => 1 < y - x <= int64_max /\ sparse t
      end
  end.

(** * Properties *)

(** ** [numpy.unique] and the filter *)

Lemma insert_unique_In x l z :
  In z (insert_unique x l) <-> z = x \/ In z l.
Proof.
  induction l as [|y t IH]; simpl.
  - intuition.
  - destruct (x <? y) eqn:Hlt; [simpl; intuition|].
    destruct (x =? y) eqn:Heq.
    + apply Z.eqb_eq in Heq; subst y; simpl; intuition.
    + simpl; rewrite IH; intuition.
Qed.

Lemma insert_unique_ascending x l :
  ascending l -> ascending (insert_unique x l).
Proof.
  unfold ascending.
  induction l as [|y t IH]; intros Hs; simpl.
  - repeat constructor.
  - inversion Hs as [|? ? Ht Hy]; subst.
    destruct (x <? y) eqn:Hlt.
    + apply Z.ltb_lt in Hlt. constructor; [exact Hs|].
      constructor; [exact Hlt|].
      eapply Forall_impl; [|exact Hy]. intros a Ha; simpl in Ha; lia.
    + destruct (x =? y) eqn:Heq; [exact Hs|].
      apply Z.ltb_ge in Hlt. apply Z.eqb_neq in Heq.
      constructor; [apply IH; exact Ht|].
      apply Forall_forall. intros a Ha.
      apply insert_unique_In in Ha. destruct Ha as [->|Ha]; [lia|].
      rewrite Forall_forall in Hy. apply Hy; exact Ha.
Qed.

Lemma unique_In l z : In z (unique l) <-> In z l.
Proof.
  induction l as [|x l IH]; simpl; [tauto|].
  rewrite insert_unique_In, IH. intuition.
Qed.

Lemma unique_ascending l : ascending (unique l).
Proof.
  induction l as [|x l IH]; simpl.
  - constructor.
  - apply insert_unique_ascending; exact IH.
Qed.

Lemma filter_ascending (p : Z -> bool) l :
  ascending l -> ascending (filter p l).
Proof.
  unfold ascending.
  induction l as [|x l IH]; intros Hs; simpl; [constructor|].
  inversion Hs as [|? ? Ht Hx]; subst.
  destruct (p x); [|apply IH; exact Ht].
  constructor; [apply IH; exact Ht|].
  rewrite Forall_forall in *. intros a Ha.
  apply filter_In in Ha. apply Hx; tauto.
Qed.

(** An ascending list is determined by its elements. *)
Lemma ascending_ext l1 l2 :
  ascending l1 -> ascending l2 -> (forall z, In z l1 <-> In z l2) -> l1 = l2.
Proof.
  unfold ascending. revert l2.
  induction l1 as [|x l1 IH]; intros l2 H1 H2 Hiff.
  - destruct l2 as [|y l2]; [reflexivity|].
    exfalso. apply (proj2 (Hiff y)). left; reflexivity.
  - destruct l2 as [|y l2].
    + exfalso. apply (proj1 (Hiff x)). left; reflexivity.
    + inversion H1 as [|? ? H1t H1x]; inversion H2 as [|? ? H2t H2y]; subst.
      rewrite Forall_forall in H1x, H2y.
      assert (x = y) as ->.
      { destruct (proj1 (Hiff x) (or_introl eq_refl)) as [E|Hin];
          [symmetry; exact E|].
        destruct (proj2 (Hiff y) (or_introl eq_refl)) as [E|Hin'];
          [exact E|].
        specialize (H1x _ Hin'). specialize (H2y _ Hin). lia. }
      f_equal. apply IH; [exact H1t|exact H2t|].
      intros z; split; intros Hz.
      * destruct (proj1 (Hiff z) (or_intror Hz)) as [E|Hin]; [|exact Hin].
        subst z. specialize (H1x _ Hz). lia.
      * destruct (proj2 (Hiff z) (or_intror Hz)) as [E|Hin]; [|exact Hin].
        subst z. specialize (H2y _ Hz). lia.
Qed.

(** What [preprocess] returns when it returns: the ascending list of the
    distinct input values, the negative ones left out under [pos]. *)
Lemma preprocess_spec lint pos ints :
  preprocess lint pos = Ok ints ->
  ascending ints /\
  forall z, In z ints <-> In z lint /\ (pos = true -> 0 <= z).
Proof.
  unfold preprocess. destruct pos.
  - pose proof (unique_ascending lint) as Hasc.
    pose proof (unique_In lint) as Hin.
    destruct (unique lint) as [|first rest] eqn:Hu;
      unfold index, bind; cbn [nth_error]; [discriminate|].
    remember (first :: rest) as u eqn:Eu.
    destruct (first <? 0) eqn:Hneg; intros [= <-].
    + split; [apply filter_ascending; exact Hasc|].
      intros z. unfold keep_nonneg. rewrite filter_In, Hin, Z.ltb_lt.
      intuition lia.
    + split; [exact Hasc|].
      intros z. apply Z.ltb_ge in Hneg.
      split; [|intros [Hz _]; apply Hin; exact Hz].
      intros Hz; split; [apply Hin; exact Hz|]. intros _.
      subst u. simpl in Hz. destruct Hz as [->|Hz]; [exact Hneg|].
      unfold ascending in Hasc. inversion Hasc as [|? ? _ Hf]; subst.
      rewrite Forall_forall in Hf. specialize (Hf _ Hz). lia.
  - intros [= <-]. split; [apply unique_ascending|].
    intros z. rewrite unique_In. intuition discriminate.
Qed.

(** [preprocess] raises only through [ints[0]] on an empty array. *)
Lemma preprocess_total lint pos :
  lint <> [] -> exists ints, preprocess lint pos = Ok ints.
Proof.
  intros Hne. unfold preprocess.
  destruct pos; [|eexists; reflexivity].
  destruct (unique lint) as [|first rest] eqn:Hu.
  - exfalso. destruct lint as [|x l]; [congruence|].
    assert (In x (unique (x :: l))) as Hx by (apply unique_In; left; reflexivity).
    rewrite Hu in Hx. exact Hx.
  - unfold index, bind; cbn [nth_error].
    destruct (first <? 0); eexists; reflexivity.
Qed.

(** ** [range] *)

Lemma range_nil a b : b <= a -> range a b = [].
Proof.
  intros H. unfold range. replace (Z.to_nat (b - a)) with O by lia. reflexivity.
Qed.

Lemma range_snoc a b : a <= b -> range a (b + 1) = (range a b ++ [b])%list.
Proof.
  intros H. unfold range.
  replace (Z.to_nat (b + 1 - a)) with (S (Z.to_nat (b - a))) by lia.
  rewrite seq_S, map_app. simpl. do 2 f_equal. lia.
Qed.

Lemma range_one a : range a (a + 1) = [a].
Proof. rewrite range_snoc, range_nil by lia. reflexivity. Qed.

Lemma range_cons a b : a < b -> range a b = a :: range (a + 1) b.
Proof.
  intros H. unfold range.
  replace (Z.to_nat (b - a)) with (S (Z.to_nat (b - (a + 1)))) by lia.
  simpl. f_equal; [lia|].
  rewrite <- seq_shift, map_map. apply map_ext. intros k. lia.
Qed.

Lemma range_In a b z : In z (range a b) <-> a <= z < b.
Proof.
  unfold range. rewrite in_map_iff. split.
  - intros (k & <- & Hk). apply in_seq in Hk. lia.
  - intros H. exists (Z.to_nat (z - a)). split; [lia|].
    apply in_seq. lia.
Qed.

Lemma range_contiguous a b : a <= b -> contiguous (range a (b + 1)).
Proof.
  intros H. unfold contiguous.
  rewrite range_snoc by exact H. rewrite last_last.
  split; [destruct (range a b); discriminate|].
  rewrite <- range_snoc by exact H.
  rewrite (range_cons a (b + 1)) at 2 by lia. simpl.
  reflexivity.
Qed.

(** ** The grouping loop *)

Lemma wrap64_exact z : int64 z -> wrap64 z = z.
Proof.
  unfold int64, wrap64, int64_min, int64_max. intros H.
  rewrite Z.mod_small; lia.
Qed.

Lemma append_last_snoc done cur i :
  append_last (done ++ [cur]) i = (done ++ [cur ++ [i]])%list.
Proof. unfold append_last. rewrite removelast_last, last_last. reflexivity. Qed.

Lemma group_step_eq lint prev i :
  group_step (lint, prev) i
  = (if 1 <? wrap64 (i - prev) then (lint ++ [[i]])%list
     else append_last lint i, i).
Proof. reflexivity. Qed.

Lemma group_loop rest : forall done cur prev,
  fst (fold_left group_step rest ((done ++ [cur])%list, prev))
  = (done ++ runs_of cur prev rest)%list.
Proof.
  induction rest as [|i rest IH]; intros done cur prev;
    cbn [fold_left runs_of]; [reflexivity|].
  rewrite group_step_eq. destruct (1 <? wrap64 (i - prev)).
  - rewrite IH, <- List.app_assoc. reflexivity.
  - rewrite append_last_snoc. apply IH.
Qed.

Lemma group_runs_of first rest :
  group (first :: rest) = Ok (runs_of [first] first rest).
Proof.
  unfold group, index, bind; cbn [nth_error tl].
  exact (f_equal Ok (group_loop rest [] [first] first)).
Qed.

Lemma group_empty : group [] = Raise IndexError.
Proof. reflexivity. Qed.

Lemma runs_of_head rest : forall cur prev,
  exists r rs, runs_of cur prev rest = r :: rs
               /\ (cur <> [] -> hd 0 r = hd 0 cur).
Proof.
  induction rest as [|i rest IH]; intros cur prev; cbn [runs_of].
  - exists cur, []. auto.
  - destruct (1 <? wrap64 (i - prev)).
    + eexists; eexists; split; [reflexivity|auto].
    + destruct (IH (cur ++ [i])%list i) as (r & rs & E & Hhd).
      exists r, rs. split; [exact E|].
      intros Hne. rewrite Hhd by (destruct cur; discriminate).
      destruct cur; [congruence|reflexivity].
Qed.

(** Whatever the arithmetic does, the runs partition the values and none of
    them is empty. *)
Lemma runs_of_partition rest : forall cur prev,
  cur <> [] ->
  List.concat (runs_of cur prev rest) = (cur ++ rest)%list
  /\ Forall (fun run => run <> []) (runs_of cur prev rest).
Proof.
  induction rest as [|i rest IH]; intros cur prev Hne; cbn [runs_of].
  - cbn [List.concat]. rewrite !List.app_nil_r. auto.
  - destruct (1 <? wrap64 (i - prev)).
    + destruct (IH [i] i) as [Hc Hf]; [discriminate|].
      cbn [List.concat]. rewrite Hc. auto.
    + destruct (IH (cur ++ [i])%list i) as [Hc Hf];
        [destruct cur; discriminate|].
      rewrite Hc, <- List.app_assoc. auto.
Qed.

Lemma group_total ints :
  ints <> [] ->
  exists runs, group ints = Ok runs
    /\ List.concat runs = ints /\ Forall (fun run => run <> []) runs.
Proof.
  intros Hne. destruct ints as [|first rest]; [congruence|].
  exists (runs_of [first] first rest). split; [apply group_runs_of|].
  apply (runs_of_partition rest [first] first). discriminate.
Qed.

(** When no difference wraps around, the runs partition the values, each
    run is contiguous, and neighbouring runs are not adjacent. *)
Lemma runs_of_spec rest : forall cur prev a,
  a <= prev -> cur = range a (prev + 1) -> ascending (prev :: rest) ->
  close (prev :: rest) ->
  List.concat (runs_of cur prev rest) = (cur ++ rest)%list
  /\ Forall contiguous (runs_of cur prev rest)
  /\ gaps (runs_of cur prev rest).
Proof.
  unfold ascending.
  induction rest as [|i rest IH]; intros cur prev a Ha Hcur Hasc Hclose;
    cbn [runs_of].
  - cbn [List.concat]. rewrite !List.app_nil_r. split; [reflexivity|].
    split; [|exact I].
    constructor; [|constructor]. subst cur. apply range_contiguous; exact Ha.
  - inversion Hasc as [|? ? Hrest Hprev]; subst.
    inversion Hprev as [|? ? Hlt _]; subst.
    assert (close (i :: rest)) as Hclose'
      by (intros x y Hx Hy; apply Hclose; right; assumption).
    assert (wrap64 (i - prev) = i - prev) as ->.
    { apply wrap64_exact.
      pose proof (Hclose prev i (or_introl eq_refl)
                    (or_intror (or_introl eq_refl))) as Hd.
      unfold int64, int64_min, int64_max in *. lia. }
    destruct (1 <? i - prev) eqn:Hgap.
    + apply Z.ltb_lt in Hgap.
      destruct (IH [i] i i (Z.le_refl i) (eq_sym (range_one i)) Hrest Hclose')
        as (Hc & Hf & Hg).
      cbn [List.concat]. rewrite Hc. split; [reflexivity|]. split.
      * constructor; [apply range_contiguous; exact Ha|exact Hf].
      * destruct (runs_of_head rest [i] i) as (r & rs & E & Hhd).
        rewrite E in Hg |- *. split; [|exact Hg].
        rewrite Hhd by discriminate. cbn [hd].
        rewrite range_snoc, last_last by exact Ha. exact Hgap.
    + apply Z.ltb_ge in Hgap. assert (i = prev + 1) as -> by lia.
      destruct (IH (range a (prev + 1) ++ [prev + 1])%list (prev + 1) a)
        as (Hc & Hf & Hg);
        [lia|symmetry; apply range_snoc; lia|exact Hrest|exact Hclose'|].
      rewrite Hc, <- List.app_assoc. split; [reflexivity|]. split; assumption.
Qed.

Lemma group_spec ints :
  ints <> [] -> ascending ints -> close ints ->
  exists runs, group ints = Ok runs
    /\ List.concat runs = ints /\ Forall contiguous runs /\ gaps runs.
Proof.
  intros Hne Hasc Hclose. destruct ints as [|first rest]; [congruence|].
  exists (runs_of [first] first rest). split; [apply group_runs_of|].
  apply (runs_of_spec rest [first] first first);
    [lia|symmetry; apply range_one|exact Hasc|exact Hclose].
Qed.

(** ** Characters of a string *)

Lemma occurs_cons c a s :
  occurs c (String a s) = (Ascii.eqb c a || occurs c s)%bool.
Proof. reflexivity. Qed.

Lemma occurs_append c s1 s2 :
  occurs c (s1 ++ s2) = (occurs c s1 || occurs c s2)%bool.
Proof.
  induction s1 as [|a s1 IH]; [reflexivity|].
  cbn [append]. rewrite !occurs_cons, IH, orb_assoc. reflexivity.
Qed.

Lemma occurs_digits c d :
  digit c = false -> occurs c (NilEmpty.string_of_uint d) = false.
Proof.
  intros H. unfold digit in H. cbn in H.
  repeat (apply orb_false_iff in H; destruct H as [? H]).
  induction d; cbn [NilEmpty.string_of_uint]; [reflexivity|..];
    rewrite occurs_cons, IHd, orb_false_r; assumption.
Qed.

(** A character that is no digit, and no minus sign either unless the
    number is not negative, is not in [str z]. *)
Lemma occurs_str c z :
  digit c = false -> (Ascii.eqb c "-" = true -> 0 <= z) ->
  occurs c (str z) = false.
Proof.
  intros H Hminus. pose proof (occurs_digits c) as Hd.
  specialize (fun d => Hd d H).
  assert (forall d, occurs c (NilZero.string_of_uint d) = false) as Hz.
  { intros d. destruct d; try apply (Hd (Decimal.D0 Decimal.Nil)); apply Hd. }
  unfold str. destruct z as [|p|p]; cbn [Z.to_int NilZero.string_of_int].
  - apply Hz.
  - apply Hz.
  - rewrite occurs_cons, Hz, orb_false_r.
    destruct (Ascii.eqb c "-") eqn:E; [|reflexivity].
    specialize (Hminus eq_refl). lia.
Qed.

Lemma apart_str minus c z :
  apart minus c = true -> (minus = false -> 0 <= z) ->
  occurs c (str z) = false.
Proof.
  unfold apart. intros H Hz. apply andb_true_iff in H. destruct H as [Hd Hm].
  apply negb_true_iff in Hd, Hm. apply occurs_str; [exact Hd|].
  intros E. rewrite E, andb_true_r in Hm. exact (Hz Hm).
Qed.

(** [int] reads back what [str] writes. *)
Lemma int_of_str_str z : int_of_str (str z) = Ok z.
Proof.
  unfold int_of_str, str.
  rewrite NilZero.isi.
  - rewrite DecimalZ.of_to. reflexivity.
  - destruct z; simpl; try discriminate.
    intros [= E]. exact (Unsigned.to_uint_nonnil _ E).
  - destruct z; simpl; try discriminate.
    intros [= E]. exact (Unsigned.to_uint_nonnil _ E).
Qed.

(** ** [split] undoes [join] *)

Lemma prefix_append s rest : prefix s (s ++ rest) = true.
Proof.
  induction s as [|a s IH]; cbn [append].
  - destruct rest; reflexivity.
  - cbn [prefix]. destruct (ascii_dec a a); [exact IH|congruence].
Qed.

Lemma prefix_head c sep a s :
  Ascii.eqb c a = false -> prefix (String c sep) (String a s) = false.
Proof.
  intros H. cbn [prefix]. destruct (ascii_dec c a) as [->|]; [|reflexivity].
  rewrite Ascii.eqb_refl in H. discriminate.
Qed.

Lemma split_from_skip sep x rest :
  split_from sep (String.length x) (x ++ rest) = split_from sep O rest.
Proof.
  induction x as [|a x IH]; cbn [String.length append]; [reflexivity|].
  cbn [split_from]. exact IH.
Qed.

(** A piece free of the separator's first character, followed by the
    separator, is split off as it is. *)
Lemma split_from_piece c sep' p rest :
  occurs c p = false ->
  split_from (String c sep') O (p ++ String c sep' ++ rest)
  = p :: split_from (String c sep') O rest.
Proof.
  induction p as [|a p IH]; intros Hfree.
  - cbn [append]. cbn [split_from].
    change (String c (sep' ++ rest)) with (String c sep' ++ rest).
    rewrite prefix_append. cbn [String.length Nat.pred].
    rewrite split_from_skip. reflexivity.
  - rewrite occurs_cons in Hfree. apply orb_false_iff in Hfree.
    destruct Hfree as [Hca Hp].
    change (String a p ++ String c sep' ++ rest)
      with (String a (p ++ String c sep' ++ rest)).
    cbn [split_from].
    rewrite (prefix_head c sep' a _ Hca), (IH Hp). reflexivity.
Qed.

Lemma split_from_last c sep' p :
  occurs c p = false -> split_from (String c sep') O p = [p].
Proof.
  induction p as [|a p IH]; intros Hfree; [reflexivity|].
  rewrite occurs_cons in Hfree. apply orb_false_iff in Hfree.
  destruct Hfree as [Hca Hp].
  cbn [split_from]. rewrite (prefix_head c sep' a _ Hca), (IH Hp). reflexivity.
Qed.

Lemma split_join c sep' pieces :
  pieces <> [] ->
  Forall (fun p => occurs c p = false) pieces ->
  split (join (String c sep') pieces) (String c sep') = Ok pieces.
Proof.
  intros Hne Hfree. unfold split, join. f_equal.
  induction pieces as [|p ps IH]; [congruence|].
  inversion Hfree as [|? ? Hp Hps]; subst.
  destruct ps as [|q ps].
  - cbn [String.concat]. apply split_from_last; exact Hp.
  - change (String.concat (String c sep') (p :: q :: ps))
      with (p ++ String c sep' ++ String.concat (String c sep') (q :: ps)).
    rewrite split_from_piece by exact Hp.
    rewrite IH by (discriminate || exact Hps). reflexivity.
Qed.

(** ** Rendering a run and reading it back *)

Lemma length_range a b : List.length (range a b) = Z.to_nat (b - a).
Proof. unfold range. rewrite length_map, length_seq. reflexivity. Qed.

(** A run is read back when the first character of the range symbol is in
    neither of its two numbers and the displayed end has not wrapped
    around. *)
Lemma render_expand d rng' exc run :
  contiguous run ->
  occurs d (str (hd 0 run)) = false ->
  occurs d (str (last run 0 + int_of_bool exc)) = false ->
  (List.length run = 1%nat \/ int64 (last run 0 + int_of_bool exc)) ->
  exists piece,
    render (String d rng') (int_of_bool exc) run = Ok piece
    /\ expand_run (String d rng') exc piece = Ok run
    /\ forall c,
         occurs c (str (hd 0 run)) = false ->
         occurs c (str (last run 0 + int_of_bool exc)) = false ->
         occurs c (String d rng') = false ->
         occurs c piece = false.
Proof.
  intros [Hne Hrun] Hd1 Hd2 Hwrap.
  destruct run as [|a t]; [congruence|].
  unfold render, index, bind; cbn [nth_error].
  cbn [hd] in *.
  destruct (Nat.eqb (List.length (a :: t)) 1) eqn:Hlen.
  - apply Nat.eqb_eq in Hlen. destruct t; [|discriminate].
    exists (str a). split; [reflexivity|]. split.
    + unfold expand_run, split, bind.
      rewrite split_from_last by exact Hd1.
      rewrite int_of_str_str. reflexivity.
    + intros c Hc _ _. exact Hc.
  - apply Nat.eqb_neq in Hlen. destruct Hwrap as [Hone|Hwrap]; [congruence|].
    rewrite (wrap64_exact _ Hwrap).
    set (b := last (a :: t) 0) in *.
    exists (str a ++ String d rng' ++ str (b + int_of_bool exc)).
    split; [reflexivity|]. split.
    + unfold expand_run.
      change (str a ++ String d rng' ++ str (b + int_of_bool exc))
        with (join (String d rng') [str a; str (b + int_of_bool exc)]).
      rewrite split_join; [|discriminate|repeat constructor; assumption].
      unfold bind. rewrite !int_of_str_str.
      rewrite Hrun. f_equal. f_equal.
      destruct exc; cbn [int_of_bool]; lia.
    + intros c Hc1 Hc2 Hcr. rewrite !occurs_append, Hc1, Hc2, Hcr.
      reflexivity.
Qed.

Lemma render_expand_all d rng' exc c runs :
  occurs c (String d rng') = false ->
  Forall (readable d c exc) runs ->
  exists pieces,
    mapM (render (String d rng') (int_of_bool exc)) runs = Ok pieces
    /\ mapM (expand_run (String d rng') exc) pieces = Ok runs
    /\ Forall (fun p => occurs c p = false) pieces
    /\ List.length pieces = List.length runs.
Proof.
  intros Hcr Hall.
  induction Hall as [|run runs Hrun _ IH].
  - exists []. repeat split; constructor.
  - destruct IH as (pieces & Hr & He & Hfree & Hlen).
    destruct Hrun as (Hcont & Hd1 & Hd2 & Hc1 & Hc2 & Hwrap).
    destruct (render_expand d rng' exc run Hcont Hd1 Hd2 Hwrap)
      as (piece & Hr1 & He1 & Hf1).
    exists (piece :: pieces). cbn [mapM]. rewrite Hr1, Hr, He1, He.
    repeat split; [constructor; auto|cbn; congruence].
Qed.

(** ** [rangeString] as a whole *)

Lemma render_ok rng e run :
  run <> [] -> exists piece, render rng e run = Ok piece.
Proof.
  intros Hne. destruct run as [|a t]; [congruence|].
  unfold render, index, bind; cbn [nth_error].
  destruct (Nat.eqb (List.length (a :: t)) 1); eexists; reflexivity.
Qed.

Lemma render_all_ok rng e runs :
  Forall (fun run => run <> []) runs ->
  exists pieces, mapM (render rng e) runs = Ok pieces.
Proof.
  induction 1 as [|run runs Hne _ [pieces IH]].
  - exists []. reflexivity.
  - destruct (render_ok rng e run Hne) as [piece Hp].
    exists (piece :: pieces). cbn [mapM]. rewrite Hp, IH. reflexivity.
Qed.

(** The input is non-empty after the filter exactly when [preprocess] hands
    on a non-empty list. *)
Lemma preprocess_nonempty lint pos :
  (exists z, In z lint /\ (pos = true -> 0 <= z)) ->
  exists ints, preprocess lint pos = Ok ints /\ ints <> [].
Proof.
  intros (z & Hz & Hpos).
  destruct (preprocess_total lint pos) as [ints Hints].
  { intros ->. exact Hz. }
  exists ints. split; [exact Hints|].
  destruct (preprocess_spec _ _ _ Hints) as [_ Hin].
  intros ->. apply (proj2 (Hin z)). split; assumption.
Qed.

(** Whenever [rangeString] returns, it went through the three stages. *)
Lemma rangeString_stages lint sep rng exc pos out :
  rangeString lint sep rng exc pos = Ok out ->
  exists ints runs pieces,
    preprocess lint pos = Ok ints /\ ints <> []
    /\ group ints = Ok runs
    /\ mapM (render rng (int_of_bool exc)) runs = Ok pieces
    /\ out = join sep pieces.
Proof.
  unfold rangeString, bind. intros H.
  destruct (preprocess lint pos) as [ints|] eqn:Hp; [|discriminate].
  destruct (group ints) as [runs|] eqn:Hg; [|discriminate].
  destruct (mapM (render rng (int_of_bool exc)) runs) as [pieces|] eqn:Hm;
    [|discriminate].
  injection H as <-. exists ints, runs, pieces.
  split; [reflexivity|]. split; [|auto].
  intros ->. rewrite group_empty in Hg. discriminate.
Qed.

(** [rangeString] depends on its input only through [preprocess]. *)
Lemma rangeString_preprocess l1 p1 l2 p2 sep rng exc :
  preprocess l1 p1 = preprocess l2 p2 ->
  rangeString l1 sep rng exc p1 = rangeString l2 sep rng exc p2.
Proof. unfold rangeString. intros ->. reflexivity. Qed.

Lemma rangeString_returns lint sep rng exc pos :
  (exists z, In z lint /\ (pos = true -> 0 <= z)) ->
  exists out, rangeString lint sep rng exc pos = Ok out.
Proof.
  intros Hne.
  destruct (preprocess_nonempty lint pos Hne) as (ints & Hp & Hints).
  destruct (group_total ints Hints) as (runs & Hg & _ & Hcont).
  destruct (render_all_ok rng (int_of_bool exc) runs Hcont) as [pieces Hm].
  exists (join sep pieces). unfold rangeString, bind. rewrite Hp, Hg, Hm.
  reflexivity.
Qed.

(** C2: on [1,2,3,4,10,15,16,17] [rangeString] returns ["1 to 4 10 15 to 17"]
    with the default options, ["1-4,10,15-17"] with separator [","] and range
    symbol ["-"], and ["1:5,10,15:18"] with separator [","], range symbol
    [":"] and an exclusive end. *)
Theorem rangeString_doctests :
  rangeString [1; 2; 3; 4; 10; 15; 16; 17] " " " to " false true
    = Ok "1 to 4 10 15 to 17"
  /\ rangeString [1; 2; 3; 4; 10; 15; 16; 17] "," "-" false true
    = Ok "1-4,10,15-17"
  /\ rangeString [1; 2; 3; 4; 10; 15; 16; 17] "," ":" true true
    = Ok "1:5,10,15:18".
Proof. repeat split; vm_compute; reflexivity. Qed.

(** The values that [preprocess] hands on are values of the input; they
    are not negative when no minus sign is to be written, and they lie
    close together when the input does or when the filter is on. *)
Lemma preprocess_values lint pos ints :
  preprocess lint pos = Ok ints ->
  (forall z, In z ints -> In z lint)
  /\ (renders_minus lint pos = false -> forall z, In z ints -> 0 <= z)
  /\ ((forall z, In z lint -> int64 z) -> pos = true \/ close lint ->
      close ints).
Proof.
  intros Hp. destruct (preprocess_spec _ _ _ Hp) as [_ Hin].
  split; [intros z Hz; apply Hin; exact Hz|]. split.
  - unfold renders_minus. intros Hm z Hz. apply Hin in Hz.
    destruct Hz as [Hz Hpos]. destruct pos; [apply Hpos; reflexivity|].
    cbn [negb andb] in Hm.
    destruct (Z.ltb_spec z 0) as [Hneg|]; [|assumption].
    exfalso.
    assert (existsb (fun z => z <? 0) lint = true) as E
      by (apply existsb_exists; exists z; split;
          [exact Hz|apply Z.ltb_lt; exact Hneg]).
    congruence.
  - intros Hrange [->|Hclose] x y Hx Hy; apply Hin in Hx, Hy.
    + destruct Hx as [_ Hx], Hy as [Hy _]. specialize (Hx eq_refl).
      apply Hrange in Hy. unfold int64 in Hy. lia.
    + apply Hclose; tauto.
Qed.

(** C8, as amended: for an input of 64-bit integers whose values lie less
    than [2^63] apart, as they always do under [pos], in every output of
    [rangeString] the rendered runs partition the processed input into
    contiguous step-one sequences, and the first value of a run exceeds the
    last value of the run before it by more than one: no two neighbouring
    runs could have been merged. *)
Theorem rangeString_runs_maximal lint sep rng exc pos out :
  (forall z, In z lint -> int64 z) ->
  pos = true \/ close lint ->
  rangeString lint sep rng exc pos = Ok out ->
  exists ints runs pieces,
    preprocess lint pos = Ok ints
    /\ group ints = Ok runs
    /\ mapM (render rng (int_of_bool exc)) runs = Ok pieces
    /\ out = join sep pieces
    /\ List.concat runs = ints
    /\ Forall contiguous runs
    /\ gaps runs.
Proof.
  intros Hrange Hclose H.
  destruct (rangeString_stages _ _ _ _ _ _ H)
    as (ints & runs & pieces & Hp & Hne & Hg & Hm & Hout).
  destruct (preprocess_spec _ _ _ Hp) as [Hasc _].
  destruct (preprocess_values _ _ _ Hp) as (_ & _ & Hc).
  destruct (group_spec ints Hne Hasc (Hc Hrange Hclose))
    as (runs' & Hg' & Hcat & Hcont & Hgaps).
  rewrite Hg in Hg'. injection Hg' as <-.
  exists ints, runs, pieces. repeat split; assumption.
Qed.

Lemma rangeString_runs_maximal_witness :
  exists ints runs pieces,
    preprocess [17; 1; 2; 16; 3; 4; 10; 15; 3] true = Ok ints
    /\ group ints = Ok runs
    /\ mapM (render "-" (int_of_bool false)) runs = Ok pieces
    /\ "1-4,10,15-17" = join "," pieces
    /\ List.concat runs = ints
    /\ Forall contiguous runs
    /\ gaps runs.
Proof.
  apply (rangeString_runs_maximal [17; 1; 2; 16; 3; 4; 10; 15; 3] "," "-"
           false true "1-4,10,15-17").
  - unfold int64, int64_min, int64_max. simpl. intros z Hz. lia.
  - left. reflexivity.
  - vm_compute. reflexivity.
Defined.

(** C8 as stated fails where the subtraction wraps around: the smallest and
    the largest 64-bit integer are [2^64 - 1] apart, the difference is
    computed as [-1], and the two values are put into one run, which is not
    contiguous. *)
Lemma rangeString_runs_wrap :
  wrap64 (int64_max - int64_min) = -1
  /\ group [int64_min; int64_max] = Ok [[int64_min; int64_max]]
  /\ ~ contiguous [int64_min; int64_max]
  /\ rangeString [int64_min; int64_max] " " " to " false false
     = Ok "-9223372036854775808 to 9223372036854775807".
Proof.
  split; [vm_compute; reflexivity|]. split; [vm_compute; reflexivity|].
  split; [|vm_compute; reflexivity].
  intros [_ H]. apply (f_equal (@List.length Z)) in H.
  rewrite length_range in H. cbn [List.length hd last] in H.
  unfold int64_min, int64_max in H. lia.
Qed.

(** C9: for an input with at least one value [>= 0], [rangeString] with
    [pos] set returns what it returns on the sub-collection of the values
    [>= 0]; on [-3,-1,0,1,2] that is ["0 to 2"]. *)
Theorem rangeString_nonneg_only :
  (forall lint sep rng exc pos',
      (exists z, In z lint /\ 0 <= z) ->
      exists out,
        rangeString lint sep rng exc true = Ok out
        /\ rangeString (filter (fun z => 0 <=? z) lint) sep rng exc pos'
           = Ok out)
  /\ rangeString [-3; -1; 0; 1; 2] " " " to " false true = Ok "0 to 2".
Proof.
  split; [|vm_compute; reflexivity].
  intros lint sep rng exc pos' (z & Hz & Hz0).
  destruct (rangeString_returns lint sep rng exc true) as [out Hout].
  { exists z. auto. }
  exists out. split; [exact Hout|]. rewrite <- Hout.
  apply rangeString_preprocess.
  destruct (preprocess_nonempty lint true) as (i1 & H1 & _).
  { exists z. auto. }
  destruct (preprocess_nonempty (filter (fun z => 0 <=? z) lint) pos')
    as (i2 & H2 & _).
  { exists z. split; [|auto]. apply filter_In. split; [exact Hz|].
    apply Z.leb_le; exact Hz0. }
  rewrite H1, H2. f_equal.
  destruct (preprocess_spec _ _ _ H1) as [A1 E1].
  destruct (preprocess_spec _ _ _ H2) as [A2 E2].
  apply ascending_ext; [exact A2|exact A1|].
  intros x. rewrite E1, E2, filter_In, Z.leb_le. intuition.
Qed.

Lemma rangeString_nonneg_only_witness :
  exists out,
    rangeString [5; -2; 6; 5; -7; 9] "," "-" false true = Ok out
    /\ rangeString (filter (fun z => 0 <=? z) [5; -2; 6; 5; -7; 9])
         "," "-" false false = Ok out.
Proof.
  apply (proj1 rangeString_nonneg_only [5; -2; 6; 5; -7; 9] "," "-" false false).
  exists 5. split; [simpl; tauto|lia].
Defined.

Lemma last_In (run : list Z) d : run <> [] -> In (last run d) run.
Proof.
  intros Hne. rewrite (app_removelast_last d Hne) at 2.
  apply in_or_app. right. left. reflexivity.
Qed.

(** Under the conditions of the round trip every run can be read back. *)
Lemma runs_readable lint pos ints runs d c exc :
  preprocess lint pos = Ok ints ->
  (forall z, In z lint -> int64 z) ->
  (exc = true -> In int64_max lint -> In (int64_max - 1) lint -> False) ->
  apart (renders_minus lint pos) d = true ->
  apart (renders_minus lint pos) c = true ->
  List.concat runs = ints ->
  Forall contiguous runs ->
  Forall (readable d c exc) runs.
Proof.
  intros Hp Hrange Hexc Hd Hc Hcat Hcont.
  destruct (preprocess_values _ _ _ Hp) as (Hsub & Hnonneg & _).
  rewrite Forall_forall in *. intros run Hrun.
  destruct (Hcont run Hrun) as [Hne Heq].
  assert (forall z, In z run -> In z lint) as Hmem.
  { intros z Hz. apply Hsub. rewrite <- Hcat. apply in_concat.
    exists run. split; assumption. }
  assert (forall z, In z run -> renders_minus lint pos = false -> 0 <= z)
    as Hpos.
  { intros z Hz Hm. apply (Hnonneg Hm). rewrite <- Hcat. apply in_concat.
    exists run. split; assumption. }
  assert (In (hd 0 run) run) as Ha
    by (destruct run; [congruence|left; reflexivity]).
  pose proof (last_In run 0 Hne) as Hb.
  assert (0 <= int_of_bool exc <= 1) as He by (destruct exc; cbn; lia).
  unfold readable. split; [split; assumption|].
  split; [apply (apart_str _ _ _ Hd); intros Hm; exact (Hpos _ Ha Hm)|].
  split; [apply (apart_str _ _ _ Hd); intros Hm;
          pose proof (Hpos _ Hb Hm); lia|].
  split; [apply (apart_str _ _ _ Hc); intros Hm; exact (Hpos _ Ha Hm)|].
  split; [apply (apart_str _ _ _ Hc); intros Hm;
          pose proof (Hpos _ Hb Hm); lia|].
  destruct (Nat.eq_dec (List.length run) 1) as [Hone|Hmany]; [left; exact Hone|].
  right. pose proof (Hrange _ (Hmem _ Hb)) as Hb64.
  destruct (Z.eq_dec (last run 0 + int_of_bool exc) (int64_max + 1))
    as [Hover|Hfine]; [|unfold int64 in *; lia].
  exfalso.
  assert (exc = true /\ last run 0 = int64_max) as [-> Hmax]
    by (destruct exc; cbn [int_of_bool] in *; unfold int64 in *;
        split; (reflexivity || lia)).
  apply Hexc; [reflexivity|rewrite <- Hmax; exact (Hmem _ Hb)|].
  apply Hmem. rewrite Heq. apply range_In.
  assert (List.length run <> 0%nat) as Hnz
    by (destruct run; [congruence|discriminate]).
  rewrite Heq, length_range in Hmany, Hnz. lia.
Qed.

(** C1, as amended: the input holds 64-bit integers less than [2^63] apart
    (as they always are under [pos]), and under [exc] not both the largest
    64-bit integer and its predecessor.  The range symbol is not empty and
    starts with no digit; the separator is not empty and starts with no
    digit and no character of the range symbol; neither starts with a
    minus sign when a negative value is rendered.  Then for every input
    that is non-empty after the optional filter the output, split on the
    separator and each piece re-expanded with the range symbol and the
    exclusivity flag, gives back exactly the deduplicated, ascending,
    filtered values of the input. *)
Theorem rangeString_roundtrip lint sep rng exc pos :
  (forall z, In z lint -> int64 z) ->
  pos = true \/ close lint ->
  (exc = true -> In int64_max lint -> In (int64_max - 1) lint -> False) ->
  symbol_ok (renders_minus lint pos) rng = true ->
  separator_ok (renders_minus lint pos) sep rng = true ->
  (exists z, In z lint /\ (pos = true -> 0 <= z)) ->
  exists out ints,
    rangeString lint sep rng exc pos = Ok out
    /\ expand sep rng exc out = Ok ints
    /\ ascending ints
    /\ forall z, In z ints <-> In z lint /\ (pos = true -> 0 <= z).
Proof.
  intros Hrange Hclose Hexc Hrng Hsep Hne.
  destruct rng as [|d rng']; [discriminate|].
  destruct sep as [|c sep']; [discriminate|].
  cbn [symbol_ok] in Hrng. cbn [separator_ok] in Hsep.
  apply andb_true_iff in Hsep. destruct Hsep as [Hc Hcr].
  apply negb_true_iff in Hcr.
  destruct (preprocess_nonempty lint pos Hne) as (ints & Hp & Hints).
  destruct (preprocess_spec _ _ _ Hp) as [Hasc Hin].
  destruct (preprocess_values _ _ _ Hp) as (_ & _ & Hcl).
  destruct (group_spec ints Hints Hasc (Hcl Hrange Hclose))
    as (runs & Hg & Hcat & Hcont & _).
  pose proof (runs_readable lint pos ints runs d c exc Hp Hrange Hexc
                Hrng Hc Hcat Hcont) as Hread.
  destruct (render_expand_all d rng' exc c runs Hcr Hread)
    as (pieces & Hr & He & Hfree & Hlen).
  exists (join (String c sep') pieces), ints.
  split; [unfold rangeString, bind; rewrite Hp, Hg, Hr; reflexivity|].
  split; [|split; assumption].
  unfold expand. rewrite split_join; [|intros ->|exact Hfree].
  - unfold bind. rewrite He, Hcat. reflexivity.
  - destruct runs; [|discriminate]. cbn in Hcat. congruence.
Qed.

Lemma rangeString_roundtrip_witness :
  (exists out ints,
      rangeString [17; -4; 2; 16; 3; 4; -3; 15; 3] ", " ".." true false
      = Ok out
      /\ expand ", " ".." true out = Ok ints
      /\ ascending ints
      /\ forall z, In z ints <->
                   In z [17; -4; 2; 16; 3; 4; -3; 15; 3]
                   /\ (false = true -> 0 <= z))
  /\ (exists out ints,
        rangeString [1; 2; 3; 4; 10; 15; 16; 17] "," "-" false true = Ok out
        /\ expand "," "-" false out = Ok ints
        /\ ascending ints
        /\ forall z, In z ints <->
                     In z [1; 2; 3; 4; 10; 15; 16; 17]
                     /\ (true = true -> 0 <= z)).
Proof.
  split.
  - apply (rangeString_roundtrip [17; -4; 2; 16; 3; 4; -3; 15; 3] ", " ".."
             true false).
    + unfold int64, int64_min, int64_max. simpl. intros z Hz. lia.
    + right. unfold close, int64_max. simpl. intros x y Hx Hy. lia.
    + unfold int64_max. simpl. intros _ H. lia.
    + reflexivity.
    + reflexivity.
    + exists 17. split; [simpl; tauto|discriminate].
  - apply (rangeString_roundtrip [1; 2; 3; 4; 10; 15; 16; 17] "," "-"
             false true).
    + unfold int64, int64_min, int64_max. simpl. intros z Hz. lia.
    + left. reflexivity.
    + discriminate.
    + reflexivity.
    + reflexivity.
    + exists 1. split; [simpl; tauto|lia].
Defined.

(** C1 as stated fails with the default options: the default range symbol
    [" to "] contains the default separator [" "], so splitting the output
    on the separator cuts through the ranges and the pieces ["to"] are no
    integers. *)
Lemma rangeString_roundtrip_defaults_fail :
  rangeString [1; 2; 3; 4; 10; 15; 16; 17] " " " to " false true
    = Ok "1 to 4 10 15 to 17"
  /\ split "1 to 4 10 15 to 17" " "
    = Ok ["1"; "to"; "4"; "10"; "15"; "to"; "17"]
  /\ expand " " " to " false "1 to 4 10 15 to 17" = Raise ValueError
  /\ expand " " " to " false "1 to 4 10 15 to 17"
     <> Ok [1; 2; 3; 4; 10; 15; 16; 17].
Proof.
  repeat split; try (vm_compute; reflexivity).
  vm_compute. discriminate.
Qed.

(** Without a separator the output does not determine the input, whatever
    the reading: [[1; 3]] and [[13]] are rendered alike. *)
Lemma rangeString_empty_separator_ambiguous :
  rangeString [1; 3] "" "-" false true = rangeString [13] "" "-" false true.
Proof. vm_compute. reflexivity. Qed.

(** C3, as amended: on an empty collection, and on a collection that the
    non-negative filter empties, [rangeString] fails with the [IndexError]
    of the unchecked access [ints[0]]; it returns no string. *)
Theorem rangeString_empty_raises lint sep rng exc pos :
  (forall z, In z lint -> pos = true /\ z < 0) ->
  rangeString lint sep rng exc pos = Raise IndexError.
Proof.
  intros Hall.
  destruct (preprocess lint pos) as [ints|e] eqn:Hp.
  - destruct (preprocess_spec _ _ _ Hp) as [_ Hin].
    assert (ints = []) as ->.
    { destruct ints as [|z t]; [reflexivity|]. exfalso.
      destruct (proj1 (Hin z) (or_introl eq_refl)) as [Hz Hpos].
      destruct (Hall z Hz) as [Htrue Hneg]. specialize (Hpos Htrue). lia. }
    unfold rangeString, bind. rewrite Hp. reflexivity.
  - unfold rangeString, bind. rewrite Hp. f_equal.
    unfold preprocess in Hp. destruct pos; [|discriminate].
    unfold index, bind in Hp. destruct (nth_error (unique lint) 0).
    + destruct (z <? 0); discriminate.
    + congruence.
Qed.

Lemma rangeString_empty_raises_witness :
  rangeString [-3; -1; -3] " " " to " false true = Raise IndexError.
Proof.
  apply rangeString_empty_raises.
  simpl. intros z Hz. split; [reflexivity|]. lia.
Defined.

(** C3 as stated fails: the empty collection raises [IndexError], the error
    of the index access itself, and not [EmptyInput]. *)
Lemma rangeString_empty_not_EmptyInput :
  rangeString [] " " " to " false true = Raise IndexError
  /\ rangeString [] " " " to " false true <> Raise EmptyInput
  /\ rangeString [-3; -1] " " " to " false true = Raise IndexError
  /\ rangeString [-3; -1] " " " to " false true <> Raise EmptyInput.
Proof. repeat split; try (vm_compute; reflexivity); vm_compute; discriminate. Qed.

(** ** [tabulate]: the column widths *)

Lemma length_replicate n c : String.length (replicate n c) = n.
Proof. induction n as [|n IH]; simpl; congruence. Qed.

Lemma length_append s1 s2 :
  String.length (s1 ++ s2) = (String.length s1 + String.length s2)%nat.
Proof. induction s1 as [|a s1 IH]; simpl; congruence. Qed.

Lemma len_times c n : len (times c n) = Z.max 0 n.
Proof. unfold len, times. rewrite length_replicate. lia. Qed.

Lemma len_append s1 s2 : len (s1 ++ s2) = len s1 + len s2.
Proof. unfold len. rewrite length_append. lia. Qed.

Lemma len_nonneg s : 0 <= len s.
Proof. unfold len. lia. Qed.

Lemma append_empty_r s : s ++ "" = s.
Proof. induction s as [|a s IH]; simpl; congruence. Qed.

Lemma fold_max_ge zs : forall z, z <= fold_left Z.max zs z.
Proof.
  induction zs as [|y zs IH]; intros z; simpl; [lia|].
  specialize (IH (Z.max z y)). lia.
Qed.

Lemma max_of_len_nonneg col w : max_of (map len col) = Ok w -> 0 <= w.
Proof.
  destruct col as [|s col]; [discriminate|]. cbn [map max_of].
  intros [= <-]. pose proof (fold_max_ge (map len col) (len s)).
  pose proof (len_nonneg s). lia.
Qed.

(** Whatever the number of columns, two widths are computed: the first
    column's, and the total width less the first width and one spacing. *)
Lemma column_widths_spec cols width space widths :
  column_widths cols width space = Ok widths ->
  exists col0 w0,
    nth_error cols 0 = Some col0
    /\ max_of (map len col0) = Ok w0
    /\ widths = [w0; width - w0 - space].
Proof.
  unfold column_widths, index, bind.
  destruct (nth_error cols 0) as [col0|]; [|discriminate].
  destruct (max_of (map len col0)) as [w0|] eqn:Hm; [|discriminate].
  assert (width - sum [w0] - Z.of_nat (List.length [w0]) * space
          = width - w0 - space) as ->
    by (cbn [sum fold_right List.length]; lia).
  intros [= <-]. exists col0, w0. repeat split; assumption.
Qed.

(** C6, as amended: for every call, with any number [N] of columns, the
    width allotted to the columns after the first is the total width less
    the first column's width less the spacing taken once; that is the
    spacing times the number of columns exactly when [N = 1] or the spacing
    is zero.  When the spacing is not negative and the first width and the
    spacing fit into the total width, the border line is as long as the
    total width. *)
Theorem tabulate_rest_width cols width space widths :
  column_widths cols width space = Ok widths ->
  exists col0 w0,
    nth_error cols 0 = Some col0
    /\ max_of (map len col0) = Ok w0
    /\ widths = [w0; width - w0 - space]
    /\ (widths = [w0; width - w0 - space * Z.of_nat (List.length cols)]
        <-> List.length cols = 1%nat \/ space = 0)
    /\ (0 <= space -> w0 + space <= width ->
        len (border widths space) = width).
Proof.
  intros H. destruct (column_widths_spec _ _ _ _ H) as (col0 & w0 & H0 & Hm & ->).
  exists col0, w0. repeat split; try assumption.
  - intros [= E].
    assert (space * (Z.of_nat (List.length cols) - 1) = 0) as E' by lia.
    apply Z.mul_eq_0 in E'. destruct E' as [E'|E']; [right; exact E'|left; lia].
  - intros [->| ->]; do 2 f_equal; lia.
  - intros Hs Hw. pose proof (max_of_len_nonneg _ _ Hm).
    unfold border, join. cbn [map String.concat].
    rewrite !len_append, !len_times. lia.
Qed.

Lemma tabulate_rest_width_witness :
  exists col0 w0,
    nth_error [["name"; "a"]; ["value"; "x"]] 0 = Some col0
    /\ max_of (map len col0) = Ok w0
    /\ [4; 14] = [w0; 20 - w0 - 2]
    /\ ([4; 14]
        = [w0; 20 - w0
               - 2 * Z.of_nat (List.length [["name"; "a"]; ["value"; "x"]])]
        <-> List.length [["name"; "a"]; ["value"; "x"]] = 1%nat \/ 2 = 0)
    /\ (0 <= 2 -> w0 + 2 <= 20 -> len (border [4; 14] 2) = 20).
Proof.
  apply (tabulate_rest_width [["name"; "a"]; ["value"; "x"]] 20 2 [4; 14]).
  vm_compute. reflexivity.
Defined.

(** C6 as stated fails for two columns: with total width 79 and spacing 2
    the second width is 76, the spacing taken once, and not
    [79 - 1 - 2 * 2]. *)
Lemma tabulate_rest_width_two_columns :
  column_widths [["a"]; ["b"]] 79 2 = Ok [1; 76]
  /\ column_widths [["a"]; ["b"]] 79 2
     <> Ok [1; 79 - 1 - 2 * Z.of_nat (List.length [["a"]; ["b"]])].
Proof. split; [vm_compute; reflexivity|vm_compute; discriminate]. Qed.

(** ** [tabulate]: the row loop *)

Lemma mapM_length {A B : Type} (f : A -> result B) (xs : list A) :
  forall ys, mapM f xs = Ok ys -> List.length ys = List.length xs.
Proof.
  induction xs as [|x xs IH]; intros ys; cbn [mapM].
  - intros [= <-]. reflexivity.
  - unfold bind. destruct (f x) as [y|]; [|discriminate].
    destruct (mapM f xs) as [ys'|]; [|discriminate].
    intros [= <-]. cbn [List.length]. f_equal. apply IH. reflexivity.
Qed.

Section Loop.

Variable textwrap : string -> Z -> result (list string).
Variables (widths : list Z) (space bars : string) (header : bool).

(** From the second turn on, a turn appends the lines of its row and
    nothing else, and leaves its index in [irow]. *)
Lemma row_loop_later rows : forall k lines irow st,
  row_loop textwrap widths space bars header
    (enumerate_from (S k) rows) (lines, irow) = Ok st ->
  exists rendered,
    mapM (row_lines textwrap widths space) rows = Ok rendered
    /\ fst st = (lines ++ List.concat rendered)%list
    /\ snd st = match rows with
               | [] => irow
               | _ :: _ => Some (k + List.length rows)%nat
               end.
Proof.
  induction rows as [|items rows IH]; intros k lines irow st;
    cbn [enumerate_from row_loop].
  - intros [= <-]. exists []. cbn [mapM List.concat fst snd].
    rewrite List.app_nil_r. auto.
  - unfold bind at 1.
    destruct (row_lines textwrap widths space items) as [new|] eqn:Hnew;
      [|discriminate].
    cbn [Nat.eqb andb fst]. intros H.
    destruct (IH (S k) _ _ _ H) as (rendered & Hm & Hfst & Hsnd).
    exists (new :: rendered). cbn [mapM]. unfold bind. rewrite Hnew, Hm.
    split; [reflexivity|]. split.
    + rewrite Hfst. cbn [List.concat]. rewrite <- List.app_assoc. reflexivity.
    + rewrite Hsnd. cbn [List.length]. destruct rows; f_equal; cbn; lia.
Qed.

(** The whole loop: no turn leaves [irow] unbound; otherwise the lines are
    the top border and the body, and [irow] is the number of rows after the
    first. *)
Lemma row_loop_spec rows st :
  row_loop textwrap widths space bars header (enumerate rows) ([bars], None)
    = Ok st ->
  match rows with
  | [] => st = ([bars], None)
  | _ :: _ =>
      exists first rest,
        mapM (row_lines textwrap widths space) rows = Ok (first :: rest)
        /\ fst st = bars :: body bars header first rest
        /\ snd st = Some (List.length rest)
  end.
Proof.
  destruct rows as [|items rows]; unfold enumerate;
    cbn [enumerate_from row_loop].
  - intros [= <-]. reflexivity.
  - unfold bind at 1.
    destruct (row_lines textwrap widths space items) as [new|] eqn:Hnew;
      [|discriminate].
    cbn [Nat.eqb andb fst]. intros H.
    destruct (row_loop_later rows O _ _ _ H) as (rendered & Hm & Hfst & Hsnd).
    exists new, rendered. cbn [mapM]. unfold bind. rewrite Hnew, Hm.
    split; [reflexivity|]. split.
    + rewrite Hfst. unfold body. destruct header; cbn [app];
        rewrite <- ?List.app_assoc; reflexivity.
    + rewrite Hsnd. rewrite (mapM_length _ _ _ Hm).
      destruct rows; reflexivity.
Qed.

End Loop.

(** ** [tabulate]: borders *)

Lemma ljust_fit a : ljust a (len a) = a.
Proof.
  unfold ljust, times. rewrite Z.sub_diag. cbn [Z.to_nat replicate].
  apply append_empty_r.
Qed.

Lemma column_widths_first a col cs width space :
  (forall s, In s col -> len s <= len a) ->
  column_widths ((a :: col) :: cs) width space
  = Ok [len a; width - len a - space].
Proof.
  intros Hmax. unfold column_widths, index, bind. cbn [nth_error map max_of].
  assert (fold_left Z.max (map len col) (len a) = len a) as ->.
  { revert Hmax. generalize (len a) as m. induction col as [|s col IH];
      intros m Hmax; cbn [map fold_left]; [reflexivity|].
    rewrite Z.max_l by (apply Hmax; left; reflexivity).
    apply IH. intros s' Hs'. apply Hmax. right; exact Hs'. }
  cbn [sum fold_right List.length app]. do 3 f_equal. lia.
Qed.

Lemma column_widths_of_max c0 cs width space w0 :
  max_of (map len c0) = Ok w0 ->
  column_widths (c0 :: cs) width space = Ok [w0; width - w0 - space].
Proof.
  intros H. unfold column_widths, index, bind. cbn [nth_error]. rewrite H.
  cbn [sum fold_right List.length app]. do 3 f_equal. lia.
Qed.

(** The structure of every table that [tabulate] returns. *)
Lemma tabulate_lines_spec tw cols width space header lines :
  tabulate_lines tw cols width space header = Ok lines ->
  exists widths first rest,
    column_widths cols width space = Ok widths
    /\ mapM (row_lines tw widths (times " " space)) (zip_cols cols)
       = Ok (first :: rest)
    /\ lines
       = (border widths space
            :: body (border widths space) header first rest
            ++ (if Nat.ltb 1 (List.length rest)
                then [border widths space] else []))%list.
Proof.
  unfold tabulate_lines. unfold bind at 1.
  destruct (column_widths cols width space) as [widths|]; [|discriminate].
  unfold bind.
  destruct (row_loop tw widths (times " " space) (border widths space) header
              (enumerate (zip_cols cols)) ([border widths space], None))
    as [st|] eqn:Hloop; [|discriminate].
  apply row_loop_spec in Hloop.
  destruct (zip_cols cols) as [|items rows].
  - subst st. discriminate.
  - destruct Hloop as (first & rest & Hm & Hfst & Hsnd).
    rewrite Hsnd, Hfst. intros [= <-].
    exists widths, first, rest. split; [reflexivity|]. split; [exact Hm|].
    destruct (Nat.ltb 1 (List.length rest));
      [reflexivity|rewrite List.app_nil_r; reflexivity].
Qed.

(** C5, as amended: every table that [tabulate] returns begins with the top
    border line and has at least one logical row; a trailing border line is
    appended exactly when more than one logical row follows the first one,
    that is when the table has at least three logical rows.  With a header
    these are the tables with more than one data row; without a header a
    table of two data rows gets no trailing border.  A single row without
    header gives the top border and that row's line, and no trailing
    border. *)
Theorem tabulate_borders tw :
  (forall cols width space header lines,
      tabulate_lines tw cols width space header = Ok lines ->
      exists widths first rest,
        column_widths cols width space = Ok widths
        /\ mapM (row_lines tw widths (times " " space)) (zip_cols cols)
           = Ok (first :: rest)
        /\ lines
           = (border widths space
                :: body (border widths space) header first rest
                ++ (if Nat.ltb 1 (List.length rest)
                    then [border widths space] else []))%list)
  /\ (forall a width space,
        tabulate_lines tw [[a]] width space false
        = Ok [border [len a; width - len a - space] space; a])
  /\ (forall a b l width space,
        tw b (width - len a - space) = Ok [l] ->
        tabulate_lines tw [[a]; [b]] width space false
        = Ok [border [len a; width - len a - space] space;
              a ++ times " " space ++ l]).
Proof.
  split; [exact (tabulate_lines_spec tw)|]. split.
  - intros a width space. unfold tabulate_lines.
    rewrite column_widths_first by (intros s []).
    unfold bind at 1. unfold enumerate. cbn [zip_cols map enumerate_from].
    cbn [row_loop]. unfold row_lines, enumerate.
    cbn [enumerate_from mapM cell index nth_error bind].
    rewrite ljust_fit. reflexivity.
  - intros a b l width space Hb. unfold tabulate_lines.
    rewrite column_widths_first by (intros s []).
    unfold bind at 1. unfold enumerate.
    cbn [zip_cols map combine fst snd enumerate_from].
    cbn [row_loop]. unfold row_lines, enumerate.
    cbn [enumerate_from mapM cell index nth_error bind].
    rewrite Hb, ljust_fit. reflexivity.
Qed.

Lemma tabulate_borders_witness :
  exists widths first rest,
    column_widths [["name"; "a"; "bb"]; ["value"; "x y"; "z"]] 20 2
    = Ok widths
    /\ mapM (row_lines textwrap_py widths (times " " 2))
         (zip_cols [["name"; "a"; "bb"]; ["value"; "x y"; "z"]])
       = Ok (first :: rest)
    /\ ["====  =============="; "name  value"; "====  ==============";
        "a     x y"; "bb    z"; "====  =============="]
       = (border widths 2
            :: body (border widths 2) true first rest
            ++ (if Nat.ltb 1 (List.length rest)
                then [border widths 2] else []))%list.
Proof.
  apply (proj1 (tabulate_borders textwrap_py)
           [["name"; "a"; "bb"]; ["value"; "x y"; "z"]] 20 2 true).
  vm_compute. reflexivity.
Defined.

(** C5 as stated fails without a header: two data rows exist, and no
    trailing border is appended. *)
Lemma tabulate_two_rows_no_trailing_border :
  tabulate_lines textwrap_py [["a"; "b"]] 10 2 false
  = Ok ["=  ======="; "a"; "b"].
Proof. vm_compute. reflexivity. Qed.

(** ** [tabulate]: columns of unequal length *)

Lemma zip_cols_length {A : Type} (cols : list (list A)) :
  List.length (zip_cols cols) = shortest cols.
Proof.
  induction cols as [|c cs IH]; [reflexivity|].
  destruct cs as [|c1 cs].
  - cbn [zip_cols shortest]. apply length_map.
  - change (zip_cols (c :: c1 :: cs))
      with (map (fun p => fst p :: snd p) (combine c (zip_cols (c1 :: cs)))).
    change (shortest (c :: c1 :: cs))
      with (Nat.min (List.length c) (shortest (c1 :: cs))).
    rewrite length_map, length_combine, IH. reflexivity.
Qed.

Lemma shortest_le {A : Type} (cols : list (list A)) c :
  In c cols -> (shortest cols <= List.length c)%nat.
Proof.
  induction cols as [|c0 cs IH]; [intros []|].
  destruct cs as [|c1 cs].
  - intros [<-|[]]. reflexivity.
  - change (shortest (c0 :: c1 :: cs))
      with (Nat.min (List.length c0) (shortest (c1 :: cs))).
    intros [<-|Hin]; [lia|]. specialize (IH Hin). lia.
Qed.

Lemma combine_firstn_r {A B : Type} n : forall (l : list A) (l' : list B),
  combine l (firstn n l') = firstn n (combine l l').
Proof.
  induction n as [|n IH]; intros l l'.
  - cbn [firstn]. destruct l; reflexivity.
  - destruct l as [|x l]; [reflexivity|].
    destruct l' as [|y l']; [reflexivity|].
    cbn [firstn combine]. rewrite IH. reflexivity.
Qed.

(** Cutting every column to [n] cells cuts the list of rows to [n] rows. *)
Lemma zip_cols_firstn {A : Type} n (cols : list (list A)) :
  zip_cols (map (firstn n) cols) = firstn n (zip_cols cols).
Proof.
  induction cols as [|c cs IH]; [destruct n; reflexivity|].
  destruct cs as [|c1 cs].
  - cbn [map zip_cols]. rewrite firstn_map. reflexivity.
  - change (zip_cols (map (firstn n) (c :: c1 :: cs)))
      with (map (fun p => fst p :: snd p)
              (combine (firstn n c) (zip_cols (map (firstn n) (c1 :: cs))))).
    change (zip_cols (c :: c1 :: cs))
      with (map (fun p => fst p :: snd p) (combine c (zip_cols (c1 :: cs)))).
    rewrite IH, firstn_map, combine_firstn. reflexivity.
Qed.

(** Cutting the columns after the first to the length of the shortest
    column changes no row. *)
Lemma zip_cols_truncate {A : Type} (c0 : list A) cs :
  zip_cols (c0 :: map (firstn (shortest (c0 :: cs))) cs) = zip_cols (c0 :: cs).
Proof.
  destruct cs as [|c1 cs]; [reflexivity|].
  set (n := shortest (c0 :: c1 :: cs)).
  change (zip_cols (c0 :: map (firstn n) (c1 :: cs)))
    with (map (fun p => fst p :: snd p)
            (combine c0 (zip_cols (map (firstn n) (c1 :: cs))))).
  rewrite zip_cols_firstn, combine_firstn_r.
  change (zip_cols (c0 :: c1 :: cs))
    with (map (fun p => fst p :: snd p) (combine c0 (zip_cols (c1 :: cs)))).
  rewrite firstn_all2; [reflexivity|].
  rewrite length_combine, zip_cols_length.
  subst n. change (shortest (c0 :: c1 :: cs))
    with (Nat.min (List.length c0) (shortest (c1 :: cs))).
  reflexivity.
Qed.

(** [tabulate] looks at its columns through the first column, for the
    widths, and through the zipped rows. *)
Lemma tabulate_same_rows tw cols cols' width space header :
  nth_error cols 0 = nth_error cols' 0 ->
  zip_cols cols = zip_cols cols' ->
  tabulate tw cols width space header = tabulate tw cols' width space header.
Proof.
  intros H0 Hz. unfold tabulate, tabulate_lines, column_widths, index.
  rewrite H0, Hz. reflexivity.
Qed.

(** C4, as amended: [tabulate] does not compare the lengths of its columns.
    It renders as many logical rows as the shortest column has cells, and
    the cells of the later columns beyond that length are ignored: cutting
    the later columns to the shortest length changes neither the table nor
    the error of the call. *)
Theorem tabulate_unequal_columns_truncated tw c0 cs width space header :
  List.length (zip_cols (c0 :: cs)) = shortest (c0 :: cs)
  /\ tabulate tw (c0 :: cs) width space header
     = tabulate tw (c0 :: map (firstn (shortest (c0 :: cs))) cs)
         width space header.
Proof.
  split; [apply zip_cols_length|].
  apply tabulate_same_rows; [reflexivity|].
  symmetry. apply zip_cols_truncate.
Qed.

(** C4 as stated fails: with a first column of two cells and a second
    column of one cell [tabulate] returns a table, the second row left out,
    and raises nothing. *)
Lemma tabulate_unequal_columns_no_error :
  tabulate_lines textwrap_py [["a"; "b"]; ["x"]] 10 2 true
  = Ok ["=  ======="; "a  x"; "=  ======="]
  /\ tabulate textwrap_py [["a"; "b"]; ["x"]] 10 2 true
     <> Raise ShapeMismatch.
Proof. split; [vm_compute; reflexivity|vm_compute; discriminate]. Qed.

(** ** [tabulate]: more than two columns *)

Lemma zip_cols_row_length {A : Type} (cols : list (list A)) row :
  In row (zip_cols cols) -> List.length row = List.length cols.
Proof.
  revert row. induction cols as [|c cs IH]; intros row; [intros []|].
  destruct cs as [|c1 cs].
  - cbn [zip_cols]. rewrite in_map_iff. intros (x & <- & _). reflexivity.
  - change (zip_cols (c :: c1 :: cs))
      with (map (fun p => fst p :: snd p) (combine c (zip_cols (c1 :: cs)))).
    rewrite in_map_iff. intros ([x r] & <- & Hin).
    apply in_combine_r in Hin. cbn [fst snd List.length].
    f_equal. apply IH. exact Hin.
Qed.

Section Wide.

Variable textwrap : string -> Z -> result (list string).

(** A row with a third cell: the comprehension of lines 150-152 wraps the
    second cell and then fails on [widths[2]]. *)
Lemma row_lines_third_cell w0 w1 space i0 i1 i2 items :
  row_lines textwrap [w0; w1] space (i0 :: i1 :: i2 :: items)
  = match textwrap i1 w1 with
    | Ok _ => Raise IndexError
    | Raise e => Raise e
    end.
Proof.
  unfold row_lines, enumerate.
  cbn [enumerate_from mapM cell index nth_error bind].
  destruct (textwrap i1 w1); reflexivity.
Qed.

Lemma row_loop_first_raises widths space bars header items rows st e :
  row_lines textwrap widths space items = Raise e ->
  row_loop textwrap widths space bars header (enumerate (items :: rows)) st
  = Raise e.
Proof.
  intros H. unfold enumerate. cbn [enumerate_from row_loop].
  rewrite H. reflexivity.
Qed.

(** With three columns or more no call returns a table. *)
Lemma tabulate_lines_wide c0 c1 c2 cs width space header lines :
  tabulate_lines textwrap (c0 :: c1 :: c2 :: cs) width space header
  <> Ok lines.
Proof.
  intros H. apply tabulate_lines_spec in H.
  destruct H as (widths & first & rest & Hw & Hm & _).
  apply column_widths_spec in Hw. destruct Hw as (col0 & w0 & _ & _ & ->).
  destruct (zip_cols (c0 :: c1 :: c2 :: cs)) as [|items rows] eqn:Hz;
    [discriminate|].
  assert (List.length items = List.length (c0 :: c1 :: c2 :: cs)) as Hlen.
  { apply zip_cols_row_length. rewrite Hz. left; reflexivity. }
  destruct items as [|i0 [|i1 [|i2 items]]]; try discriminate.
  cbn [mapM] in Hm. rewrite row_lines_third_cell in Hm.
  unfold bind in Hm. destruct (textwrap i1 (width - w0 - space)); discriminate.
Qed.

End Wide.

(** C10, as amended: [tabulate] computes exactly two column widths however
    many columns are passed.  A call with three or more columns, each with
    at least one cell, always fails on its first row: with the [IndexError]
    of [widths[2]] when the wrap of the row's second cell returns, and with
    the exception of that wrap otherwise (it is raised first).  No call with
    zero or with more than two columns returns a table. *)
Theorem tabulate_three_columns tw width space header :
  (forall cols widths,
      column_widths cols width space = Ok widths -> List.length widths = 2%nat)
  /\ (forall a0 r0 a1 r1 a2 r2 cs,
        Forall (fun c => c <> []) cs ->
        tabulate tw ((a0 :: r0) :: (a1 :: r1) :: (a2 :: r2) :: cs)
          width space header
        = match tw a1 (width - fold_left Z.max (map len r0) (len a0) - space)
          with
          | Ok _ => Raise IndexError
          | Raise e => Raise e
          end)
  /\ (forall cols out,
        tabulate tw cols width space header = Ok out ->
        List.length cols = 1%nat \/ List.length cols = 2%nat).
Proof.
  split; [|split].
  - intros cols widths H. apply column_widths_spec in H.
    destruct H as (col0 & w0 & _ & _ & ->). reflexivity.
  - intros a0 r0 a1 r1 a2 r2 cs Hcs.
    unfold tabulate, tabulate_lines.
    set (w0 := fold_left Z.max (map len r0) (len a0)).
    rewrite (column_widths_of_max (a0 :: r0) _ width space w0 eq_refl).
    unfold bind at 2.
    assert (exists items rows,
               zip_cols ((a0 :: r0) :: (a1 :: r1) :: (a2 :: r2) :: cs)
               = (a0 :: a1 :: a2 :: items) :: rows) as (items & rows & ->).
    { assert (forall (a : string) r cs', Forall (fun c => c <> []) cs' ->
                exists items rows,
                  zip_cols ((a :: r) :: cs') = (a :: items) :: rows) as Hhead.
      { intros a r cs' Hall. revert a r.
        induction Hall as [|c cs' Hc _ IH]; intros a r.
        - exists [], (map (fun x => [x]) r). reflexivity.
        - destruct c as [|b t]; [congruence|].
          destruct (IH b t) as (items & rows & E).
          change (zip_cols ((a :: r) :: (b :: t) :: cs'))
            with (map (fun p => fst p :: snd p)
                    (combine (a :: r) (zip_cols ((b :: t) :: cs')))).
          rewrite E. cbn [combine map fst snd].
          eexists; eexists; reflexivity. }
      change (zip_cols ((a0 :: r0) :: (a1 :: r1) :: (a2 :: r2) :: cs))
        with (map (fun p => fst p :: snd p)
                (combine (a0 :: r0)
                   (map (fun p => fst p :: snd p)
                      (combine (a1 :: r1) (zip_cols ((a2 :: r2) :: cs)))))).
      destruct (Hhead a2 r2 cs Hcs) as (items & rows & ->).
      cbn [combine map fst snd]. eexists; eexists; reflexivity. }
    destruct (tw a1 (width - w0 - space)) as [ls|e] eqn:Hwrap.
    + rewrite (row_loop_first_raises tw _ _ _ _ _ _ _ IndexError);
        [reflexivity|].
      rewrite row_lines_third_cell, Hwrap. reflexivity.
    + rewrite (row_loop_first_raises tw _ _ _ _ _ _ _ e); [reflexivity|].
      rewrite row_lines_third_cell, Hwrap. reflexivity.
  - intros cols out H. unfold tabulate in H. unfold bind in H.
    destruct (tabulate_lines tw cols width space header) as [lines|] eqn:Hl;
      [|discriminate].
    destruct cols as [|c0 [|c1 [|c2 cs]]]; auto.
    + discriminate.
    + exfalso. exact (tabulate_lines_wide tw _ _ _ _ _ _ _ _ Hl).
Qed.

Lemma tabulate_three_columns_witness :
  tabulate textwrap_py [["a"; "b"]; ["x"; "y"]; ["u"; "v"]] 79 2 true
  = match
      textwrap_py "x" (79 - fold_left Z.max (map len ["b"]) (len "a") - 2)
    with
    | Ok _ => Raise IndexError
    | Raise e => Raise e
    end.
Proof.
  apply (proj1 (proj2 (tabulate_three_columns textwrap_py 79 2 true))
           "a" ["b"] "x" ["y"] "u" ["v"] []).
  constructor.
Defined.

(** C10 as stated fails when the width left for the second column is not
    positive: the wrap of the first row's second cell raises [ValueError]
    before [widths[2]] is looked up. *)
Lemma tabulate_three_columns_narrow :
  tabulate textwrap_py [["aaaa"]; ["b"]; ["c"]] 3 2 true = Raise ValueError
  /\ tabulate textwrap_py [["aaaa"]; ["b"]; ["c"]] 3 2 true
     <> Raise IndexError.
Proof. split; [vm_compute; reflexivity|vm_compute; discriminate]. Qed.

(** ** [tabulate]: physical lines of a logical row *)

Section Padding.

Variable textwrap : string -> Z -> result (list string).

(** The loop of lines 155-156 brings every column up to [maxlen] lines. *)
Lemma pad_length widths maxlen rows : forall k rows',
  mapM (pad widths maxlen) (enumerate_from k rows) = Ok rows' ->
  Forall (fun row => (List.length row <= maxlen)%nat) rows ->
  Forall (fun row => List.length row = maxlen) rows'.
Proof.
  induction rows as [|row rows IH]; intros k rows'; cbn [enumerate_from mapM].
  - intros [= <-] _. constructor.
  - unfold bind, pad at 1. unfold bind.
    destruct (index widths k) as [w|]; [|discriminate].
    destruct (mapM (pad widths maxlen) (enumerate_from (S k) rows))
      as [rest|] eqn:Hrest; [|discriminate].
    intros [= <-] Hall. inversion Hall as [|? ? Hrow Hrows]; subst.
    constructor; [|exact (IH _ _ Hrest Hrows)].
    rewrite length_app, repeat_length. lia.
Qed.

(** Two columns, the second cell wrapped into two lines or more: the first
    column is padded with blank lines of its width, and the row has as many
    physical lines as the wrap has. *)
Lemma row_lines_wrapped w0 w1 space a b l1 l2 ls :
  textwrap b w1 = Ok (l1 :: l2 :: ls) ->
  exists lines,
    row_lines textwrap [w0; w1] space [a; b] = Ok lines
    /\ List.length lines = List.length (l1 :: l2 :: ls)
    /\ nth_error lines 0 = Some (ljust a w0 ++ space ++ l1)
    /\ nth_error lines 1 = Some (times " " w0 ++ space ++ l2).
Proof.
  intros Hb. unfold row_lines, enumerate.
  cbn [enumerate_from mapM cell index nth_error bind]. rewrite Hb.
  cbn [bind max_len map List.length fold_left Nat.max Nat.ltb Nat.leb].
  cbn [enumerate_from mapM pad index nth_error bind List.length Nat.sub].
  cbn [app repeat zip_cols combine map fst snd].
  eexists. split; [reflexivity|]. cbn [List.length nth_error map].
  rewrite Nat.sub_diag. cbn [repeat].
  rewrite List.app_nil_r, !length_map, length_combine, repeat_length,
    length_map, Nat.min_id.
  auto.
Qed.

(** Two columns, the second cell wrapped into no line at all: nothing is
    padded, the zip of the columns' lines is empty, and the row yields no
    physical line; the cell of the first column is not printed. *)
Lemma row_lines_empty_wrap w0 w1 space a b :
  textwrap b w1 = Ok [] ->
  row_lines textwrap [w0; w1] space [a; b] = Ok [].
Proof.
  intros Hb. unfold row_lines, enumerate.
  cbn [enumerate_from mapM cell index nth_error bind]. rewrite Hb.
  reflexivity.
Qed.

End Padding.

(** C7, on the input that shows the defect: the second row has an empty
    cell in the second column; its wrap has no line, the row is not padded
    because no column has more than one line, and the table that
    [tabulate] returns has no line for the row: the cell ["a"] of the first
    column is lost, where one line with a blank second column was due. *)
Theorem tabulate_empty_cell_drops_row :
  textwrap_py "" 14 = Ok []
  /\ tabulate_lines textwrap_py
       [["name"; "a"; "bb"]; ["value"; ""; "x"]] 20 2 true
     = Ok ["====  =============="; "name  value"; "====  ==============";
           "bb    x"; "====  =============="].
Proof. split; vm_compute; reflexivity. Qed.

(** * Further properties of the module *)

(** ** [rangeString]: what the result depends on *)

Lemma range_ascending a b : ascending (range a b).
Proof.
  unfold ascending.
  remember (Z.to_nat (b - a)) as n eqn:Hn. revert a Hn.
  induction n as [|n IH]; intros a Hn.
  - rewrite range_nil by lia. constructor.
  - rewrite range_cons by lia. constructor; [apply IH; lia|].
    apply Forall_forall. intros z Hz. apply range_In in Hz. lia.
Qed.

Lemma unique_of_ascending l : ascending l -> unique l = l.
Proof.
  intros H. apply ascending_ext; [apply unique_ascending|exact H|].
  apply unique_In.
Qed.

(** X1: the result of [rangeString] depends only on the set of the values:
    two inputs with the same elements, in whatever order and with whatever
    repetitions, give the same string or the same error. *)
Theorem rangeString_same_elements l1 l2 sep rng exc pos :
  (forall z, In z l1 <-> In z l2) ->
  rangeString l1 sep rng exc pos = rangeString l2 sep rng exc pos.
Proof.
  intros H. apply rangeString_preprocess. unfold preprocess.
  replace (unique l2) with (unique l1); [reflexivity|].
  apply ascending_ext; try apply unique_ascending.
  intros z. rewrite !unique_In. apply H.
Qed.

Lemma rangeString_same_elements_witness :
  rangeString [3; 1; 2; 3; 7; 1] "," "-" false true
  = rangeString [7; 2; 1; 3] "," "-" false true.
Proof.
  apply rangeString_same_elements.
  intros z. simpl. intuition.
Defined.

Lemma mapM_raises {A B : Type} (f : A -> result B) (xs : list A) e0 :
  (forall x e, f x = Raise e -> e = e0) ->
  forall e, mapM f xs = Raise e -> e = e0.
Proof.
  intros Hf. induction xs as [|x xs IH]; intros e; cbn [mapM]; [discriminate|].
  unfold bind. destruct (f x) as [y|e1] eqn:Hx.
  - destruct (mapM f xs) as [ys|e2]; [discriminate|].
    intros [= <-]. apply IH. reflexivity.
  - intros [= <-]. exact (Hf _ _ Hx).
Qed.

(** X2: [rangeString] returns a string exactly when some value of the input
    is left after the optional filter, and the only exception it raises is
    [IndexError]. *)
Theorem rangeString_returns_iff lint sep rng exc pos :
  ((exists out, rangeString lint sep rng exc pos = Ok out)
   <-> (exists z, In z lint /\ (pos = true -> 0 <= z)))
  /\ (forall e, rangeString lint sep rng exc pos = Raise e -> e = IndexError).
Proof.
  split; [split|].
  - intros [out H].
    destruct (rangeString_stages _ _ _ _ _ _ H)
      as (ints & _ & _ & Hp & Hne & _).
    destruct (preprocess_spec _ _ _ Hp) as [_ Hin].
    destruct ints as [|z t]; [congruence|].
    exists z. apply Hin. left; reflexivity.
  - apply rangeString_returns.
  - intros e. unfold rangeString. unfold bind at 1.
    destruct (preprocess lint pos) as [ints|e1] eqn:Hp.
    + unfold bind at 1. destruct (group ints) as [runs|e2] eqn:Hg.
      * unfold bind.
        destruct (mapM (render rng (int_of_bool exc)) runs) as [ps|e3] eqn:Hm;
          [discriminate|].
        intros [= <-]. revert Hm. apply mapM_raises.
        intros run e'. unfold render, index, bind.
        destruct (Nat.eqb (List.length run) 1);
          destruct (nth_error run 0); congruence.
      * intros [= <-]. unfold group, index, bind in Hg.
        destruct (nth_error ints 0); congruence.
    + intros [= <-]. unfold preprocess, index, bind in Hp.
      destruct pos; [|discriminate].
      destruct (nth_error (unique lint) 0) as [first|]; [|congruence].
      destruct (first <? 0); discriminate.
Qed.

Lemma rangeString_returns_iff_witness :
  exists out, rangeString [-5; 4; -1; 5] " " " to " false true = Ok out.
Proof.
  apply (proj2 (proj1 (rangeString_returns_iff [-5; 4; -1; 5] " " " to "
                         false true))).
  exists 4. split; [simpl; tauto|lia].
Defined.

Lemma runs_of_interval n : forall cur prev c,
  n = Z.to_nat (c - (prev + 1)) ->
  runs_of cur prev (range (prev + 1) c) = [(cur ++ range (prev + 1) c)%list].
Proof.
  induction n as [|n IH]; intros cur prev c Hn.
  - rewrite range_nil by lia. cbn [runs_of]. rewrite List.app_nil_r.
    reflexivity.
  - rewrite range_cons by lia. cbn [runs_of].
    replace (prev + 1 - prev) with 1 by lia.
    change (1 <? wrap64 1) with false. cbn iota.
    rewrite IH by lia.
    rewrite <- (List.app_assoc cur [prev + 1]). reflexivity.
Qed.

(** X3: on the 64-bit integers from [a] to [b], with none of them filtered
    out, [rangeString] returns the bare number when [a = b] and otherwise
    the one range from [a] to [b], or to [b + 1] under [exc] when [b] is not
    the largest 64-bit integer; the separator is not used. *)
Theorem rangeString_interval a b sep rng exc pos :
  int64 a -> int64 b ->
  a <= b -> (pos = true -> 0 <= a) ->
  (exc = true -> a < b -> b < int64_max) ->
  rangeString (range a (b + 1)) sep rng exc pos
  = Ok (if a =? b then str a
        else str a ++ rng ++ str (b + int_of_bool exc)).
Proof.
  intros Ha64 Hb64 Hab Hpos Hexc. unfold rangeString.
  assert (preprocess (range a (b + 1)) pos = Ok (range a (b + 1))) as ->.
  { unfold preprocess. rewrite unique_of_ascending by apply range_ascending.
    destruct pos; [|reflexivity].
    rewrite (range_cons a (b + 1)) by lia.
    unfold index, bind; cbn [nth_error].
    replace (a <? 0) with false
      by (symmetry; apply Z.ltb_ge; apply Hpos; reflexivity).
    reflexivity. }
  unfold bind at 1. rewrite (range_cons a (b + 1)) by lia.
  rewrite group_runs_of. unfold bind at 1.
  rewrite (runs_of_interval (Z.to_nat (b + 1 - (a + 1)))) by reflexivity.
  change ([a] ++ range (a + 1) (b + 1))%list with (a :: range (a + 1) (b + 1)).
  rewrite <- (range_cons a (b + 1)) by lia.
  cbn [mapM]. unfold render.
  rewrite length_range.
  assert (index (range a (b + 1)) 0 = Ok a) as ->
    by (rewrite (range_cons a (b + 1)) by lia; reflexivity).
  assert (last (range a (b + 1)) 0 = b) as ->
    by (rewrite range_snoc by lia; apply last_last).
  destruct (a =? b) eqn:E.
  - apply Z.eqb_eq in E. subst b.
    replace (Z.to_nat (a + 1 - a)) with 1%nat by lia. reflexivity.
  - apply Z.eqb_neq in E.
    replace (Nat.eqb (Z.to_nat (b + 1 - a)) 1) with false
      by (symmetry; apply Nat.eqb_neq; lia).
    rewrite wrap64_exact; [reflexivity|].
    unfold int64 in *. destruct exc; cbn [int_of_bool]; [|lia].
    assert (b < int64_max) by (apply Hexc; [reflexivity|lia]). lia.
Qed.

Lemma rangeString_interval_witness :
  rangeString (range (-2) (3 + 1)) "," ":" true false
  = Ok (if -2 =? 3 then str (-2)
        else str (-2) ++ ":" ++ str (3 + int_of_bool true)).
Proof.
  apply rangeString_interval;
    unfold int64, int64_min, int64_max; try lia; discriminate.
Defined.

(** X4: on an input without negative values the [pos] option makes no
    difference, the empty input included. *)
Theorem rangeString_pos_irrelevant lint sep rng exc :
  (forall z, In z lint -> 0 <= z) ->
  rangeString lint sep rng exc true = rangeString lint sep rng exc false.
Proof.
  intros Hall. unfold rangeString, preprocess.
  pose proof (unique_In lint) as Hin.
  destruct (unique lint) as [|first rest]; [reflexivity|].
  unfold index; cbn [nth_error]. unfold bind at 2.
  replace (first <? 0) with false; [reflexivity|].
  symmetry. apply Z.ltb_ge. apply Hall. apply Hin. left; reflexivity.
Qed.

Lemma rangeString_pos_irrelevant_witness :
  rangeString [4; 0; 5; 9] "," "-" false true
  = rangeString [4; 0; 5; 9] "," "-" false false.
Proof.
  apply rangeString_pos_irrelevant.
  simpl. intros z Hz. lia.
Defined.

(** ** [alnum] *)

Lemma append_assoc_string (s1 s2 s3 : string) :
  (s1 ++ s2) ++ s3 = s1 ++ (s2 ++ s3).
Proof. induction s1 as [|a s1 IH]; cbn [append]; congruence. Qed.

Lemma alnum_loop_acc alt s : forall acc,
  alnum_loop acc alt s = acc ++ alnum s alt.
Proof.
  unfold alnum. induction s as [|c s IH]; intros acc; cbn [alnum_loop].
  - symmetry. apply append_empty_r.
  - rewrite IH. rewrite (IH (if isalnum c then _ else _)).
    destruct (isalnum c); cbn [append]; rewrite append_assoc_string;
      reflexivity.
Qed.

Lemma alnum_cons c s alt :
  alnum (String c s) alt = alnum_char alt c ++ alnum s alt.
Proof.
  unfold alnum at 1. cbn [alnum_loop]. rewrite alnum_loop_acc.
  unfold alnum_char. destruct (isalnum c); reflexivity.
Qed.

(** X5: [alnum] works character by character: the result on a
    concatenation is the concatenation of the results. *)
Theorem alnum_append s1 s2 alt :
  alnum (s1 ++ s2) alt = alnum s1 alt ++ alnum s2 alt.
Proof.
  induction s1 as [|c s1 IH]; [reflexivity|].
  cbn [append]. rewrite !alnum_cons, IH, append_assoc_string. reflexivity.
Qed.

(** X6: every alphanumeric character is kept and every other character
    gives one copy of [alt]; with a replacement of one character, as the
    default is, the result is as long as the input. *)
Theorem alnum_length s alt :
  String.length (alnum s alt)
  = (count_alnum s
     + (String.length s - count_alnum s) * String.length alt)%nat
  /\ (String.length alt = 1%nat ->
      String.length (alnum s alt) = String.length s).
Proof.
  assert (count_alnum s <= String.length s)%nat as Hle.
  { unfold count_alnum. induction s as [|c s IH]; cbn; [lia|].
    destruct (isalnum c); cbn; lia. }
  assert (String.length (alnum s alt)
          = (count_alnum s
             + (String.length s - count_alnum s) * String.length alt)%nat)
    as Hlen.
  { clear Hle. induction s as [|c s IH]; [reflexivity|].
    assert (count_alnum s <= String.length s)%nat as Hle.
    { unfold count_alnum. clear IH. induction s as [|c' s IH]; cbn; [lia|].
      destruct (isalnum c'); cbn; lia. }
    rewrite alnum_cons, length_append, IH.
    unfold alnum_char, count_alnum in *. cbn [list_ascii_of_string filter].
    destruct (isalnum c); cbn [List.length String.length]; nia. }
  split; [exact Hlen|]. intros H1. rewrite Hlen, H1. lia.
Qed.

Lemma alnum_length_witness :
  String.length (alnum "a b-c.d" "_") = String.length "a b-c.d".
Proof.
  apply (proj2 (alnum_length "a b-c.d" "_")). reflexivity.
Defined.

Lemma alnum_clean s alt :
  forallb isalnum (list_ascii_of_string s) = true -> alnum s alt = s.
Proof.
  induction s as [|c s IH]; [reflexivity|].
  cbn [list_ascii_of_string forallb]. intros H.
  apply andb_true_iff in H. destruct H as [Hc Hs].
  rewrite alnum_cons, (IH Hs). unfold alnum_char. rewrite Hc. reflexivity.
Qed.

(** X7: a string of letters and digits only is returned as it is, whatever
    the replacement. *)
Theorem alnum_identity s alt :
  forallb isalnum (list_ascii_of_string s) = true -> alnum s alt = s.
Proof. apply alnum_clean. Qed.

Lemma alnum_identity_witness : alnum "Chain2A" "??" = "Chain2A".
Proof. apply alnum_identity. reflexivity. Defined.

(** X8: applying [alnum] twice with the same replacement changes nothing
    more, when the replacement has at most one character or is made of
    letters and digits. *)
Theorem alnum_idempotent s alt :
  (String.length alt <= 1)%nat
  \/ forallb isalnum (list_ascii_of_string alt) = true ->
  alnum (alnum s alt) alt = alnum s alt.
Proof.
  intros Halt.
  assert (alnum alt alt = alt) as Hfix.
  { destruct Halt as [Hlen|Hall]; [|apply alnum_clean; exact Hall].
    destruct alt as [|c [|c' alt]]; [reflexivity| |cbn in Hlen; lia].
    rewrite alnum_cons. unfold alnum_char. destruct (isalnum c); reflexivity. }
  induction s as [|c s IH]; [reflexivity|].
  rewrite alnum_cons, alnum_append, IH. f_equal.
  unfold alnum_char. destruct (isalnum c) eqn:Hc; [|exact Hfix].
  rewrite alnum_cons. unfold alnum_char. rewrite Hc. reflexivity.
Qed.

Lemma alnum_idempotent_witness :
  alnum (alnum "1abc:A (x)" "_") "_" = alnum "1abc:A (x)" "_".
Proof.
  apply alnum_idempotent. left. cbn. lia.
Defined.

(** X9: every character of the result is a letter, a digit, or a character
    of the replacement. *)
Theorem alnum_characters s alt c :
  occurs c (alnum s alt) = true -> isalnum c = true \/ occurs c alt = true.
Proof.
  induction s as [|a s IH]; [discriminate|].
  rewrite alnum_cons, occurs_append. intros H.
  apply orb_true_iff in H. destruct H as [H|H]; [|exact (IH H)].
  unfold alnum_char in H. destruct (isalnum a) eqn:Ha; [|right; exact H].
  rewrite occurs_cons in H. cbn in H. rewrite orb_false_r in H.
  apply Ascii.eqb_eq in H. subst c. left; exact Ha.
Qed.

Lemma alnum_characters_witness :
  isalnum "_" = true \/ occurs "_" "_" = true.
Proof.
  apply (alnum_characters "a b" "_" "_"). reflexivity.
Defined.

(** ** [dictElement] *)

Lemma dict_get_set d k v k' :
  dict_get (dict_set d k v) k'
  = if String.eqb k k' then Some v else dict_get d k'.
Proof.
  induction d as [|[k0 v0] d IH]; cbn [dict_set dict_get]; [reflexivity|].
  destruct (String.eqb_spec k0 k) as [->|Hne]; cbn [dict_get].
  - destruct (String.eqb k k'); reflexivity.
  - rewrite IH. destruct (String.eqb_spec k0 k') as [->|Hne'];
      [|reflexivity].
    destruct (String.eqb_spec k k'); [congruence|reflexivity].
Qed.

Lemma keys_set d k v k' :
  In k' (keys (dict_set d k v)) <-> k' = k \/ In k' (keys d).
Proof.
  unfold keys. induction d as [|[k0 v0] d IH]; cbn [dict_set map fst In].
  - intuition.
  - destruct (String.eqb_spec k0 k) as [->|Hne]; cbn [map fst In].
    + intuition.
    + rewrite IH. intuition.
Qed.

Lemma keys_set_NoDup d k v : NoDup (keys d) -> NoDup (keys (dict_set d k v)).
Proof.
  unfold keys. induction d as [|[k0 v0] d IH]; cbn [dict_set map fst];
    intros H.
  - constructor; [intros []|constructor].
  - inversion H as [|? ? Hnotin Hnd]; subst.
    destruct (String.eqb_spec k0 k) as [->|Hne]; cbn [map fst].
    + constructor; assumption.
    + constructor; [|apply IH; exact Hnd].
      intros Hin. apply (keys_set d k v k0) in Hin.
      destruct Hin as [E|Hin]; [congruence|exact (Hnotin Hin)].
Qed.

Lemma find_snoc {A : Type} (f : A -> bool) l x :
  find f (l ++ [x])
  = match find f l with
    | Some y => Some y
    | None => if f x then Some x else None
    end.
Proof.
  induction l as [|a l IH]; cbn [app find]; [reflexivity|].
  destruct (f a); [reflexivity|exact IH].
Qed.

Section DictElement.

Variable prefix : option string.

Lemma dict_fold_get cs : forall d k,
  dict_get (fold_left (dict_step prefix) cs d) k
  = match find (fun c => String.eqb (child_key prefix c) k) (rev cs) with
    | Some c => Some (child_value c)
    | None => dict_get d k
    end.
Proof.
  induction cs as [|c cs IH]; intros d k; [reflexivity|].
  cbn [fold_left rev]. rewrite IH, find_snoc.
  destruct (find _ (rev cs)); [reflexivity|].
  unfold dict_step. rewrite dict_get_set.
  destruct (String.eqb (child_key prefix c) k); reflexivity.
Qed.

Lemma dict_fold_keys cs : forall d k,
  In k (keys (fold_left (dict_step prefix) cs d))
  <-> In k (keys d) \/ exists c, In c cs /\ child_key prefix c = k.
Proof.
  induction cs as [|c cs IH]; intros d k; cbn [fold_left].
  - split; [auto|]. intros [H|(c & [] & _)]; exact H.
  - rewrite IH. unfold dict_step. rewrite keys_set. split.
    + intros [[->|H]|(c' & Hc' & E)]; eauto.
      * right. exists c. split; [left; reflexivity|reflexivity].
      * right. exists c'. split; [right; exact Hc'|exact E].
    + intros [H|(c' & [->|Hc'] & E)]; eauto.
Qed.

Lemma dict_fold_NoDup cs : forall d,
  NoDup (keys d) -> NoDup (keys (fold_left (dict_step prefix) cs d)).
Proof.
  induction cs as [|c cs IH]; intros d H; cbn [fold_left]; [exact H|].
  apply IH. apply keys_set_NoDup. exact H.
Qed.

Lemma dict_fold_length cs : forall d,
  (List.length (fold_left (dict_step prefix) cs d) <= List.length d + List.length cs)%nat.
Proof.
  assert (forall d k v,
             (List.length (dict_set d k v) <= S (List.length d))%nat) as Hset.
  { induction d as [|[k0 v0] d IH]; intros k v; cbn [dict_set List.length];
      [lia|].
    destruct (String.eqb k0 k); cbn [List.length]; [lia|].
    specialize (IH k v). lia. }
  induction cs as [|c cs IH]; intros d; cbn [fold_left List.length]; [lia|].
  specialize (IH (dict_step prefix d c)).
  specialize (Hset d (child_key prefix c) (child_value c)).
  change (dict_set d (child_key prefix c) (child_value c))
    with (dict_step prefix d c) in Hset.
  lia.
Qed.

End DictElement.

(** X10: looking a key up in the dictionary of [dictElement] gives the
    value of the last child whose key it is, so a later child replaces an
    earlier child with the same key; a key of no child is not in the
    dictionary. *)
Theorem dictElement_lookup element prefix k :
  dict_get (dictElement element prefix) k
  = option_map child_value
      (find (fun c => String.eqb (child_key prefix c) k)
         (rev (children element))).
Proof.
  unfold dictElement. rewrite (dict_fold_get prefix).
  destruct (find _ (rev (children element))); reflexivity.
Qed.

(** X11: the keys of the dictionary are the keys of the children, each of
    them once, so the dictionary has at most as many entries as the element
    has children. *)
Theorem dictElement_keys element prefix :
  NoDup (keys (dictElement element prefix))
  /\ (forall k,
        In k (keys (dictElement element prefix))
        <-> exists c, In c (children element) /\ child_key prefix c = k)
  /\ (List.length (dictElement element prefix)
      <= List.length (children element))%nat.
Proof.
  unfold dictElement. split; [|split].
  - apply (dict_fold_NoDup prefix). constructor.
  - intros k. rewrite (dict_fold_keys prefix). cbn [keys map In]. tauto.
  - exact (dict_fold_length prefix (children element) []).
Qed.

Lemma dictElement_keys_witness :
  In "name"
    (keys (dictElement
             (Elem "root" None
                [Elem "ns:name" (Some "x") []; Elem "ns:name" (Some "y") []])
             (Some "ns:"))).
Proof.
  apply (proj1 (proj2 (dictElement_keys _ _))).
  exists (Elem "ns:name" (Some "x") []). split; [left; reflexivity|reflexivity].
Defined.

Lemma drop_append p rest : drop (String.length p) (p ++ rest) = rest.
Proof.
  induction p as [|a p IH]; cbn [String.length append drop].
  - destruct rest; reflexivity.
  - exact IH.
Qed.

(** X12: the key of a child is its tag without the prefix when the prefix
    is a non-empty string and the tag starts with it; it is the whole tag
    when the tag does not start with the prefix, when the prefix is empty
    and when no prefix is given. *)
Theorem child_key_prefix :
  (forall p rest x cs,
      p <> EmptyString -> child_key (Some p) (Elem (p ++ rest) x cs) = rest)
  /\ (forall p child,
        String.prefix p (tag child) = false ->
        child_key (Some p) child = tag child)
  /\ (forall child, child_key (Some EmptyString) child = tag child)
  /\ (forall child, child_key None child = tag child).
Proof.
  split; [|split; [|split]].
  - intros p rest x cs Hp. unfold child_key. cbn [tag].
    rewrite prefix_append, drop_append.
    destruct p; [congruence|reflexivity].
  - intros p child H. unfold child_key. rewrite H, andb_false_r. reflexivity.
  - intros child. reflexivity.
  - intros child. reflexivity.
Qed.

Lemma child_key_prefix_witness :
  child_key (Some "{urn:x}") (Elem ("{urn:x}" ++ "atom") None []) = "atom".
Proof.
  apply (proj1 child_key_prefix). discriminate.
Defined.

(** ** [tabulate]: calls that return, calls that raise *)

Section Returns.

Variable textwrap : string -> Z -> result (list string).
Variables (widths : list Z) (space bars : string) (header : bool).

Lemma row_loop_later_ok rows : forall rendered k lines irow,
  mapM (row_lines textwrap widths space) rows = Ok rendered ->
  row_loop textwrap widths space bars header
    (enumerate_from (S k) rows) (lines, irow)
  = Ok ((lines ++ List.concat rendered)%list,
        match rows with
        | [] => irow
        | _ :: _ => Some (k + List.length rows)%nat
        end).
Proof.
  induction rows as [|items rows IH]; intros rendered k lines irow;
    cbn [mapM enumerate_from row_loop].
  - intros [= <-]. cbn [List.concat]. rewrite List.app_nil_r. reflexivity.
  - unfold bind.
    destruct (row_lines textwrap widths space items) as [new|]; [|discriminate].
    destruct (mapM (row_lines textwrap widths space) rows) as [rest|] eqn:Hm;
      [|discriminate].
    intros [= <-]. cbn [Nat.eqb andb fst].
    rewrite (IH rest (S k)) by reflexivity.
    cbn [List.concat List.length]. rewrite <- List.app_assoc.
    do 2 f_equal. destruct rows; f_equal; cbn; lia.
Qed.

Lemma row_loop_ok items rows first rest :
  mapM (row_lines textwrap widths space) (items :: rows) = Ok (first :: rest) ->
  row_loop textwrap widths space bars header (enumerate (items :: rows))
    ([bars], None)
  = Ok (bars :: body bars header first rest, Some (List.length rest)).
Proof.
  cbn [mapM]. unfold enumerate. cbn [enumerate_from row_loop]. unfold bind.
  destruct (row_lines textwrap widths space items) as [new|]; [|discriminate].
  destruct (mapM (row_lines textwrap widths space) rows) as [rendered|] eqn:Hm;
    [|discriminate].
  intros [= <- <-]. cbn [Nat.eqb andb fst].
  rewrite (row_loop_later_ok rows rendered O) by exact Hm.
  rewrite (mapM_length _ _ _ Hm). unfold body.
  f_equal. f_equal.
  - destruct header; cbn [app]; rewrite <- ?List.app_assoc; reflexivity.
  - destruct rows; reflexivity.
Qed.

End Returns.

(** When the widths are computed and every row is rendered, the table is
    returned. *)
Lemma tabulate_lines_ok tw cols width space header widths first rest :
  column_widths cols width space = Ok widths ->
  mapM (row_lines tw widths (times " " space)) (zip_cols cols)
  = Ok (first :: rest) ->
  tabulate_lines tw cols width space header
  = Ok (border widths space
          :: body (border widths space) header first rest
          ++ (if Nat.ltb 1 (List.length rest)
              then [border widths space] else []))%list.
Proof.
  intros Hw Hm. unfold tabulate_lines. rewrite Hw. unfold bind at 1.
  destruct (zip_cols cols) as [|items rows]; [discriminate|].
  rewrite (row_loop_ok tw _ _ _ header items rows first rest Hm).
  unfold bind. cbn [fst snd].
  destruct (Nat.ltb 1 (List.length rest));
    [reflexivity|rewrite List.app_nil_r; reflexivity].
Qed.

Lemma zip_cols_empty_column {A : Type} (cols : list (list A)) :
  In [] cols -> zip_cols cols = [].
Proof.
  intros Hin. apply length_zero_iff_nil. rewrite zip_cols_length.
  pose proof (shortest_le cols [] Hin) as H. cbn in H. lia.
Qed.

(** X13: a call that has no row to render returns no table.  Without
    columns it raises [IndexError]; with an empty first column,
    [ValueError], the error of [max] on an empty sequence; with cells in the
    first column and an empty column after it, [UnboundLocalError], [irow]
    being read after a loop that never ran. *)
Theorem tabulate_no_rows tw width space header :
  tabulate tw [] width space header = Raise IndexError
  /\ (forall cs, tabulate tw ([] :: cs) width space header = Raise ValueError)
  /\ (forall a r cs,
        In [] cs ->
        tabulate tw ((a :: r) :: cs) width space header
        = Raise UnboundLocalError).
Proof.
  split; [reflexivity|]. split; [reflexivity|].
  intros a r cs Hin. unfold tabulate, tabulate_lines.
  rewrite (column_widths_of_max (a :: r) cs width space _ eq_refl).
  unfold bind at 2.
  rewrite (zip_cols_empty_column ((a :: r) :: cs)) by (right; exact Hin).
  reflexivity.
Qed.

Lemma tabulate_no_rows_witness :
  tabulate textwrap_py [["a"; "b"]; []] 79 2 true = Raise UnboundLocalError.
Proof.
  apply (proj2 (proj2 (tabulate_no_rows textwrap_py 79 2 true))).
  left; reflexivity.
Defined.

Lemma fold_max_In zs : forall z x,
  x <= z \/ In x zs -> x <= fold_left Z.max zs z.
Proof.
  induction zs as [|y zs IH]; intros z x; cbn [fold_left In].
  - intros [H|[]]. exact H.
  - intros [H|[->|Hin]]; apply IH; [left; lia|left; lia|right; exact Hin].
Qed.

Lemma len_ljust s w : len s <= w -> len (ljust s w) = w.
Proof.
  intros H. unfold ljust. rewrite len_append, len_times. lia.
Qed.

Lemma row_lines_one_cell tw w0 w1 space s :
  row_lines tw [w0; w1] space [s] = Ok [ljust s w0].
Proof. reflexivity. Qed.

Lemma mapM_map_ok {A B C : Type} (f : B -> result C) (g : A -> B)
  (h : A -> C) (xs : list A) :
  (forall x, f (g x) = Ok (h x)) -> mapM f (map g xs) = Ok (map h xs).
Proof.
  intros H. induction xs as [|x xs IH]; cbn [map mapM]; [reflexivity|].
  rewrite H, IH. reflexivity.
Qed.

Lemma concat_map_singleton {A B : Type} (f : A -> B) (l : list A) :
  List.concat (map (fun x => [f x]) l) = map f l.
Proof.
  induction l as [|x l IH]; cbn [map List.concat app]; congruence.
Qed.

(** X14: a table of one column with at least one cell is always returned,
    the wrapping function not being called: after the top border every cell
    has its own line, left-justified to the length of the longest cell, with
    the header border after the first cell and the trailing border when
    more than two cells are given. *)
Theorem tabulate_one_column tw a rest width space header :
  let w0 := fold_left Z.max (map len rest) (len a) in
  let bars := border [w0; width - w0 - space] space in
  tabulate_lines tw [a :: rest] width space header
  = Ok (bars :: ljust a w0
          :: (if header then [bars] else [])
          ++ map (fun s => ljust s w0) rest
          ++ (if Nat.ltb 1 (List.length rest) then [bars] else []))%list
  /\ (forall s, In s (a :: rest) -> len (ljust s w0) = w0).
Proof.
  intros w0 bars. split.
  - rewrite (tabulate_lines_ok tw [a :: rest] width space header
               [w0; width - w0 - space] [ljust a w0]
               (map (fun s => [ljust s w0]) rest)).
    + unfold body. fold bars.
      rewrite length_map, concat_map_singleton.
      cbn [app]. rewrite <- !List.app_assoc. reflexivity.
    + apply column_widths_of_max. reflexivity.
    + cbn [zip_cols map mapM]. rewrite row_lines_one_cell. unfold bind at 1.
      rewrite (mapM_map_ok _ (fun x => [x]) (fun s => [ljust s w0]));
        [reflexivity|].
      intros s. apply row_lines_one_cell.
  - intros s Hs. apply len_ljust. apply fold_max_In.
    destruct Hs as [<-|Hs]; [left; lia|].
    right. apply in_map. exact Hs.
Qed.

Lemma tabulate_one_column_witness :
  len (ljust "c" (fold_left Z.max (map len ["abcd"; "c"]) (len "x")))
  = fold_left Z.max (map len ["abcd"; "c"]) (len "x").
Proof.
  apply (proj2 (tabulate_one_column textwrap_py "x" ["abcd"; "c"] 30 2 true)
           "c").
  simpl. tauto.
Defined.

(** ** [tabulate]: two columns *)

Lemma zip_two_join space (r0 : list string) : forall r1,
  map (join space) (zip_cols [r0; r1])
  = map (fun p => fst p ++ space ++ snd p) (combine r0 r1).
Proof.
  cbn [zip_cols].
  induction r0 as [|x r0 IH]; intros r1; [reflexivity|].
  destruct r1 as [|y r1]; [reflexivity|].
  cbn [map combine fst snd]. rewrite IH. reflexivity.
Qed.

Lemma nth_error_combine {A B : Type} i : forall (xs : list A) (ys : list B) x y,
  nth_error xs i = Some x -> nth_error ys i = Some y ->
  nth_error (combine xs ys) i = Some (x, y).
Proof.
  induction i as [|i IH]; intros [|x' xs] [|y' ys] x y; cbn [nth_error combine];
    try discriminate.
  - intros [= ->] [= ->]. reflexivity.
  - apply IH.
Qed.

Lemma row_lines_two_cells tw w0 w1 space a b ls :
  tw b w1 = Ok ls ->
  row_lines tw [w0; w1] space [a; b]
  = Ok (map (fun p => fst p ++ space ++ snd p)
          (combine
             (ljust a w0 :: repeat (times " " w0) (List.length ls - 1))
             ls)).
Proof.
  intros Hb. unfold row_lines, enumerate.
  cbn [enumerate_from mapM cell index nth_error bind]. rewrite Hb.
  cbn [bind max_len map List.length fold_left].
  destruct ls as [|l1 [|l2 ls]].
  - reflexivity.
  - reflexivity.
  - cbn [List.length Nat.max Nat.ltb Nat.leb].
    cbn [enumerate_from mapM pad index nth_error bind List.length Nat.sub].
    rewrite Nat.sub_diag. cbn [repeat].
    rewrite List.app_nil_r, zip_two_join. reflexivity.
Qed.

(** X15: in a table of two columns a logical row has as many physical lines
    as the wrap of its second cell has lines.  The first of them starts with
    the first cell, left-justified to the first width, the others with as
    many blanks; the spacing and the line of the wrap follow. *)
Theorem row_lines_two_columns tw w0 w1 space a b ls :
  tw b w1 = Ok ls ->
  exists lines,
    row_lines tw [w0; w1] space [a; b] = Ok lines
    /\ List.length lines = List.length ls
    /\ (forall i l,
          nth_error ls i = Some l ->
          nth_error lines i
          = Some ((if Nat.eqb i 0 then ljust a w0 else times " " w0)
                  ++ space ++ l)).
Proof.
  intros Hb. eexists. split; [apply row_lines_two_cells; exact Hb|].
  set (col0 := ljust a w0 :: repeat (times " " w0) (List.length ls - 1)).
  assert (List.length col0 = Nat.max 1 (List.length ls)) as Hlen
    by (unfold col0; cbn [List.length]; rewrite repeat_length; lia).
  split.
  - rewrite length_map, length_combine, Hlen. lia.
  - intros i l Hi.
    assert (nth_error col0 i
            = Some (if Nat.eqb i 0 then ljust a w0 else times " " w0)) as H0.
    { assert (i < List.length ls)%nat as Hlt
        by (apply nth_error_Some; congruence).
      unfold col0. destruct i as [|i]; [reflexivity|].
      cbn [nth_error Nat.eqb]. apply nth_error_repeat. lia. }
    rewrite nth_error_map.
    assert (nth_error (combine col0 ls) i
            = Some (if Nat.eqb i 0 then ljust a w0 else times " " w0, l)) as ->
      by (apply nth_error_combine; assumption).
    reflexivity.
Qed.

Lemma row_lines_two_columns_witness :
  exists lines,
    row_lines textwrap_py [4; 5] "  " ["ab"; "one two"] = Ok lines
    /\ List.length lines = List.length ["one"; "two"]
    /\ (forall i l,
          nth_error ["one"; "two"] i = Some l ->
          nth_error lines i
          = Some ((if Nat.eqb i 0 then ljust "ab" 4 else times " " 4)
                  ++ "  " ++ l)).
Proof.
  apply (row_lines_two_columns textwrap_py 4 5 "  " "ab" "one two").
  vm_compute. reflexivity.
Defined.

Lemma mapM_total {A B : Type} (f : A -> result B) (xs : list A) :
  Forall (fun x => exists y, f x = Ok y) xs -> exists ys, mapM f xs = Ok ys.
Proof.
  induction 1 as [|x xs [y Hy] _ [ys IH]].
  - exists []. reflexivity.
  - exists (y :: ys). cbn [mapM]. rewrite Hy, IH. reflexivity.
Qed.

(** X16: a table of two columns, each with at least one cell, is returned
    whenever the wrapping of every cell of the second column returns: no
    other step of the call can raise. *)
Theorem tabulate_two_columns_returns tw a0 r0 a1 r1 width space header :
  (forall b, In b (a1 :: r1) ->
     exists ls,
       tw b (width - fold_left Z.max (map len r0) (len a0) - space) = Ok ls) ->
  exists lines,
    tabulate_lines tw [a0 :: r0; a1 :: r1] width space header = Ok lines
    /\ hd_error lines
       = Some (border
                 [fold_left Z.max (map len r0) (len a0);
                  width - fold_left Z.max (map len r0) (len a0) - space]
                 space).
Proof.
  set (w0 := fold_left Z.max (map len r0) (len a0)).
  set (w1 := width - w0 - space). intros Hwrap.
  assert (exists rendered,
             mapM (row_lines tw [w0; w1] (times " " space))
               (zip_cols [a0 :: r0; a1 :: r1]) = Ok rendered)
    as [rendered Hm].
  { apply mapM_total. apply Forall_forall. intros row Hrow.
    cbn [zip_cols] in Hrow. apply in_map_iff in Hrow.
    destruct Hrow as ([a bs] & <- & Hin). cbn [fst snd].
    pose proof (in_combine_r _ _ _ _ Hin) as Hbs.
    apply in_map_iff in Hbs. destruct Hbs as (b & <- & Hb).
    destruct (Hwrap b Hb) as [ls Hls].
    eexists. apply row_lines_two_cells. exact Hls. }
  destruct rendered as [|first rest].
  { apply mapM_length in Hm. discriminate. }
  eexists. split.
  - apply (tabulate_lines_ok tw _ width space header [w0; w1] first rest);
      [apply column_widths_of_max; reflexivity|exact Hm].
  - reflexivity.
Qed.

Lemma tabulate_two_columns_returns_witness :
  exists lines,
    tabulate_lines textwrap_py [["k"; "id"]; ["v"; "a b"]] 12 2 true = Ok lines
    /\ hd_error lines
       = Some (border
                 [fold_left Z.max (map len ["id"]) (len "k");
                  12 - fold_left Z.max (map len ["id"]) (len "k") - 2]
                 2).
Proof.
  apply tabulate_two_columns_returns.
  intros b Hb. eexists. unfold textwrap_py. vm_compute (_ <=? 0). reflexivity.
Defined.

(** X17: the exception of the wrapping function is the exception of the
    call: when the wrap of the first row's second cell raises, as
    [textwrap.wrap] does on a width that is not positive, [tabulate] raises
    the same exception and returns no table. *)
Theorem tabulate_wrap_raises tw a0 r0 a1 r1 width space header e :
  tw a1 (width - fold_left Z.max (map len r0) (len a0) - space) = Raise e ->
  tabulate tw [a0 :: r0; a1 :: r1] width space header = Raise e.
Proof.
  set (w0 := fold_left Z.max (map len r0) (len a0)).
  intros Hwrap. unfold tabulate, tabulate_lines.
  rewrite (column_widths_of_max (a0 :: r0) _ width space w0 eq_refl).
  unfold bind at 2. cbn [zip_cols combine map fst snd].
  rewrite (row_loop_first_raises tw _ _ _ _ _ _ _ e); [reflexivity|].
  unfold row_lines, enumerate.
  cbn [enumerate_from mapM cell index nth_error bind]. rewrite Hwrap.
  reflexivity.
Qed.

Lemma tabulate_wrap_raises_witness :
  tabulate textwrap_py [["name"; "a"]; ["value"; "x"]] 6 2 true
  = Raise ValueError.
Proof.
  apply tabulate_wrap_raises. vm_compute. reflexivity.
Defined.

(** ** [wrap] *)

(** X18: [wrap] raises what the wrapping raises, and otherwise joins the
    lines: when there is at least one line and the first character of the
    joiner occurs in none of them, splitting the result on the joiner gives
    the lines back. *)
Theorem wrap_split tw text0 width c join' :
  (forall e, tw text0 width = Raise e ->
             wrap tw text0 width (String c join') = Raise e)
  /\ (forall lines,
        tw text0 width = Ok lines ->
        lines <> [] ->
        Forall (fun l => occurs c l = false) lines ->
        exists s,
          wrap tw text0 width (String c join') = Ok s
          /\ split s (String c join') = Ok lines).
Proof.
  split.
  - intros e H. unfold wrap. rewrite H. reflexivity.
  - intros lines H Hne Hfree. unfold wrap. rewrite H. cbn [bind].
    eexists. split; [reflexivity|]. apply split_join; assumption.
Qed.

Lemma wrap_split_witness :
  exists s,
    wrap textwrap_py "to be or not to be" 8 newline = Ok s
    /\ split s newline = Ok ["to be or"; "not to"; "be"].
Proof.
  apply (proj2 (wrap_split textwrap_py "to be or not to be" 8
                  (ascii_of_nat 10) EmptyString)).
  - vm_compute. reflexivity.
  - discriminate.
  - repeat constructor.
Defined.

(** ** [rangeString]: values without neighbours *)

Lemma sparse_ascending l : sparse l -> ascending l.
Proof.
  unfold ascending. induction l as [|x t IH]; intros H; [constructor|].
  destruct t as [|y t]; [repeat constructor|].
  destruct H as [[Hxy _] Ht]. specialize (IH Ht).
  constructor; [exact IH|].
  inversion IH as [|? ? _ Hy]; subst.
  constructor; [lia|].
  eapply Forall_impl; [|exact Hy]. intros z Hz; cbn in Hz; lia.
Qed.

Lemma runs_of_sparse t : forall x,
  sparse (x :: t) -> runs_of [x] x t = map (fun z => [z]) (x :: t).
Proof.
  induction t as [|y t IH]; intros x H; [reflexivity|].
  destruct H as [[Hxy Hclose] Ht]. cbn [runs_of].
  rewrite wrap64_exact
    by (unfold int64, int64_min, int64_max in *; lia).
  replace (1 <? y - x) with true by (symmetry; apply Z.ltb_lt; exact Hxy).
  rewrite (IH y Ht). reflexivity.
Qed.

(** X19: when the values are given in ascending order, no two neighbours
    consecutive nor [2^63] or more apart, and none filtered out, the result
    lists every value by itself; the range symbol and the exclusivity
    option play no part. *)
Theorem rangeString_sparse l sep rng exc pos :
  (forall z, In z l -> int64 z) ->
  l <> [] -> sparse l -> (pos = true -> 0 <= hd 0 l) ->
  rangeString l sep rng exc pos = Ok (join sep (map str l)).
Proof.
  intros _ Hne Hsp Hpos. destruct l as [|x t]; [congruence|].
  unfold rangeString.
  assert (preprocess (x :: t) pos = Ok (x :: t)) as ->.
  { unfold preprocess.
    rewrite unique_of_ascending by (apply sparse_ascending; exact Hsp).
    destruct pos; [|reflexivity].
    unfold index, bind; cbn [nth_error].
    replace (x <? 0) with false
      by (symmetry; apply Z.ltb_ge; apply Hpos; reflexivity).
    reflexivity. }
  unfold bind at 1. rewrite group_runs_of. unfold bind at 1.
  rewrite (runs_of_sparse t x Hsp).
  rewrite (mapM_map_ok _ (fun z => [z]) str); [reflexivity|].
  intros z. reflexivity.
Qed.

Lemma rangeString_sparse_witness :
  rangeString [-4; 1; 5; 9] ";" "-" true false
  = Ok (join ";" (map str [-4; 1; 5; 9])).
Proof.
  apply rangeString_sparse.
  - unfold int64, int64_min, int64_max. simpl. intros z Hz. lia.
  - discriminate.
  - simpl. unfold int64_max. lia.
  - discriminate.
Defined.
